(** * IBM "Ponder This" March 2024: a shallow embedding of the three solvers

    The repository holds three C programs that look for the smallest
    non-negative integer [A] such that none of the [n] terms
    [a_0 = A], [a_i = a_(i-1) + i] is prime:

    - [IBM_ponder_2024-03_1.c]   backward strategy ([processArray],
      [look4StartValue]) and the verifier [CheckSequence];
    - [IBM_ponder_2024-03_2.c]   forward strategy ([fillArrayOfPrimes],
      [isCorrectValue], the loop of [main]);
    - [IBM_ponder_2024-03_2_MT.c] the forward strategy run by several
      threads ([mainLoop], the loop of [main]).

    Conventions of the embedding.
    - [int_fast64_t] values are integers of [Z].  Signed overflow is
      undefined behaviour in C, so the embedding describes the runs in which
      every intermediate value fits the machine type.
    - The [char] arrays [numberArray] and [primeArray] only ever hold 0 and
      1; they are lists of [bool] ([true] for 1).
    - The primesieve library is external.  Its iterator is modelled by the
      position from which the next prime is looked for:
      [primesieve_jump_to] sets the position and [primesieve_next_prime]
      returns the smallest prime at or above it and moves past it.  The
      library takes its start as a [uint64_t]: the model describes the calls
      with a start [>= 0], the domain of the candidates, and every theorem
      that runs the prime source assumes that the start value or offset it
      is given is not negative.
    - A counted C loop is a [Fixpoint] on the number of iterations left.
      The other loops are [Fixpoint]s on a fuel counter: [processArray],
      [fillArrayOfPrimes] and [CheckSequence] supply a fuel computed from
      their arguments, which is shown never to run out, and the two
      unbounded search loops ([look4StartValue], the loop of [main]) take
      the fuel as an argument and are shown to return for some fuel.
      [None] stands for "out of fuel" or, for the guarded accesses to
      [primeArray], for an access outside the array.
    - The threads of program 2_MT are interleaved by a schedule, a list of
      thread numbers; every access to the shared [bestValue] is a step. *)

From Stdlib Require Import ZArith Zdivisibility Lia Bool List.
From stdpp Require Import base list.
Import ListNotations.

Local Open Scope Z_scope.

(** ** The prime source (primesieve) *)

Module Primesieve.

(** [no_div k d p]: none of [d, d+1, ..., d+k-1] divides [p]. *)
Fixpoint no_div (k : nat) (d p : Z) : bool :=
  match k with
  | O => true
  | S k' => negb (p mod d =? 0) && no_div k' (d + 1) p
  end.

(** Primality by trial division. *)
Definition is_prime (p : Z) : bool :=
  (2 <=? p) && no_div (Z.to_nat (p - 2)) 2 p.

(** [zfact k = k!], used to bound the search for the next prime. *)
Fixpoint zfact (k : nat) : Z :=
  match k with
  | O => 1
  | S k' => Z.of_nat (S k') * zfact k'
  end.

(** [find_prime fuel x] looks at the [fuel] integers [x, x+1, ...] in
    increasing order and stops at the first prime ([inl p]); [inr x'] is the
    next integer to look at when none of them is prime.  The fuel is a
    binary number so that the (huge) bound below costs nothing. *)
Fixpoint find_prime (fuel : positive) (x : Z) : Z + Z :=
  match fuel with
  | xH => if is_prime x then inl x else inr (x + 1)
  | xO f =>
      match find_prime f x with
      | inl p => inl p
      | inr x' => find_prime f x'
      end
  | xI f =>
      match find_prime f x with
      | inl p => inl p
      | inr x' =>
          match find_prime f x' with
          | inl p => inl p
          | inr x'' => if is_prime x'' then inl x'' else inr (x'' + 1)
          end
      end
  end.

(** The smallest prime [>= x], for [x >= 0].  By Euclid's argument there is
    a prime in [(x, x! + 1]], so the search always succeeds; the [inr]
    branch is dead.  A negative [x] is outside the model: the C call would
    convert it to a [uint64_t] near [2^64]. *)
Definition first_prime_from (x : Z) : Z :=
  let x0 := Z.max x 2 in
  match find_prime (Z.to_pos (zfact (Z.to_nat x0) + 2)) x0 with
  | inl p => p
  | inr _ => 0
  end.

(** The iterator: the position from which the next prime is searched. *)
Definition iterator := Z.

(** [primesieve_jump_to(&it, start, stop_hint)]; the hint only tunes the
    sieve and does not change what is returned. *)
Definition primesieve_jump_to (start stop_hint : Z) : iterator := start.

(** [primesieve_next_prime(&it)]: the prime returned and the new iterator. *)
Definition primesieve_next_prime (it : iterator) : Z * iterator :=
  let p := first_prime_from it in (p, p + 1).

End Primesieve.

Import Primesieve.

(** ** The sequence *)

(** [T i = i (i + 1) / 2], the i-th triangular number: [a_i = A + T i]. *)
Definition T (i : Z) : Z := i * (i + 1) / 2.

(** Some term of the sequence of length [n] started at [A] is prime. *)
Definition has_prime_term (A n : Z) : Prop :=
  exists i, 0 <= i < n /\ Z.prime (A + T i).

(** [A] is a valid start value for length [n]. *)
Definition valid_start (A n : Z) : Prop :=
  forall i, 0 <= i < n -> ~ Z.prime (A + T i).

(** ** Array cells *)

(** [arr[idx]] read as a flag, for the reads that the code guards itself
    ([idx] is known to be inside the array). *)
Definition alive (numberArray : list bool) (idx : Z) : bool :=
  match numberArray !! Z.to_nat idx with
  | Some b => b
  | None => false
  end.

(** Guarded accesses: [None] is an access outside the array, which is
    undefined behaviour in C. *)
Definition load (arr : list bool) (idx : Z) : option bool :=
  if idx <? 0 then None else arr !! Z.to_nat idx.

Definition store (arr : list bool) (idx : Z) (v : bool) : option (list bool) :=
  if (0 <=? idx) && (idx <? Z.of_nat (length arr))
  then Some (<[Z.to_nat idx := v]> arr)
  else None.

(** ** Program 1: the backward strategy *)

Module Backward.

(** [initArray]: every cell is set to 1. *)
Definition initArray (size : Z) : list bool :=
  replicate (Z.to_nat size) true.

(** The loop [while (i <= n)] of [processArray] (lines 112-119), [n] being
    the decremented length.  [k] counts the iterations left, [n - i + 1]. *)
Fixpoint ruleOut (k : nat) (i size offsetPrime : Z)
    (numberArray : list bool) : list bool :=
  match k with
  | O => numberArray
  | S k' =>
      let offsetPrime := offsetPrime - i in
      let i := i + 1 in
      if offsetPrime <? 0 then numberArray
      else if offsetPrime >=? size then
        ruleOut k' i size offsetPrime numberArray
      else
        ruleOut k' i size offsetPrime
          (<[Z.to_nat offsetPrime := false]> numberArray)
  end.

(** The loop [do possibleStartIndex++ while (...)] (lines 122-124). *)
Fixpoint skipRuledOut (fuel : nat) (possibleStartIndex size : Z)
    (numberArray : list bool) : option Z :=
  match fuel with
  | O => None
  | S f =>
      let possibleStartIndex := possibleStartIndex + 1 in
      if (possibleStartIndex <? size)
         && negb (alive numberArray possibleStartIndex)
      then skipRuledOut f possibleStartIndex size numberArray
      else Some possibleStartIndex
  end.

(** The outer [do ... while] of [processArray] (lines 104-128); [n] is the
    decremented length. *)
Fixpoint processArray_loop (fuel : nat) (it : iterator)
    (numberArray : list bool)
    (offset n size upperBoundDiff possibleStartIndex : Z) : option Z :=
  match fuel with
  | O => None
  | S f =>
      let '(lastPrime, it) := primesieve_next_prime it in
      let initialOffsetPrime := lastPrime - offset in
      let numberArray :=
        ruleOut (Z.to_nat (n + 1)) 0 size initialOffsetPrime numberArray in
      let again possibleStartIndex :=
        if possibleStartIndex + upperBoundDiff >=? initialOffsetPrime
        then processArray_loop f it numberArray offset n size
               upperBoundDiff possibleStartIndex
        else Some possibleStartIndex in
      if negb (alive numberArray possibleStartIndex) then
        match skipRuledOut (Z.to_nat size) possibleStartIndex size
                numberArray with
        | None => None
        | Some possibleStartIndex =>
            if possibleStartIndex =? size then Some (-1)
            else again possibleStartIndex
        end
      else again possibleStartIndex
  end.

(** [processArray]; the global array is an argument.  The loop is left at
    the latest when the prime exceeds [offset + size + upperBoundDiff], which
    bounds the number of passes. *)
Definition processArray (numberArray : list bool)
    (offset startValueIndex n size : Z) : option Z :=
  let possibleStartIndex := startValueIndex in
  let n := n - 1 in
  let upperBoundDiff := n * (n + 1) / 2 in
  let it := primesieve_jump_to (offset + startValueIndex)
              (offset + size + 2 * upperBoundDiff) in
  processArray_loop (S (Z.to_nat (size + upperBoundDiff))) it numberArray
    offset n size upperBoundDiff possibleStartIndex.

(** [look4StartValue]: the [while (1)] loop, one pass per block. *)
Fixpoint look4StartValue (fuel : nat) (startValue n size : Z) : option Z :=
  match fuel with
  | O => None
  | S f =>
      match processArray (initArray size) startValue 0 n size with
      | None => None
      | Some correctStartIndex =>
          if correctStartIndex >=? 0
          then Some (correctStartIndex + startValue)
          else look4StartValue f (startValue + size) n size
      end
  end.

End Backward.

(** ** The verifier (the same function in the three programs) *)

Module Verifier.

(** [while ((nextPrime = primesieve_next_prime(&it)) < initialValue) ;] *)
Fixpoint firstPrimeToCheck (fuel : nat) (it : iterator) (initialValue : Z)
    : option (Z * iterator) :=
  match fuel with
  | O => None
  | S f =>
      let '(nextPrime, it) := primesieve_next_prime it in
      if nextPrime <? initialValue
      then firstPrimeToCheck f it initialValue
      else Some (nextPrime, it)
  end.

(** The loop that adds the post-incremented iteration number to
    [initialValue] while the sum stays below [nextPrime], left by [break]
    once the iteration number has reached [n] (lines 235-238). *)
Fixpoint advanceSequence (fuel : nat)
    (initialValue iterationNbr nextPrime n : Z) : option (Z * Z) :=
  match fuel with
  | O => None
  | S f =>
      let initialValue := initialValue + iterationNbr in
      let iterationNbr := iterationNbr + 1 in
      if initialValue <? nextPrime then
        if iterationNbr >=? n then Some (initialValue, iterationNbr)
        else advanceSequence f initialValue iterationNbr nextPrime n
      else Some (initialValue, iterationNbr)
  end.

(** The [do ... while] loop, repeated while the iteration number is below
    [n].  The result is the value returned together with the final
    iteration number. *)
Fixpoint CheckSequence_loop (fuel : nat) (it : iterator)
    (initialValue iterationNbr n : Z) : option (Z * Z) :=
  match fuel with
  | O => None
  | S f =>
      match firstPrimeToCheck (S (Z.to_nat (initialValue - it))) it
              initialValue with
      | None => None
      | Some (nextPrime, it) =>
          if nextPrime =? initialValue then Some (initialValue, iterationNbr)
          else
            match advanceSequence (S (Z.to_nat n)) initialValue iterationNbr
                    nextPrime n with
            | None => None
            | Some (initialValue, iterationNbr) =>
                if nextPrime =? initialValue
                then Some (initialValue, iterationNbr)
                else if iterationNbr <? n
                then CheckSequence_loop f it initialValue iterationNbr n
                else Some (0, iterationNbr)
            end
      end
  end.

Definition CheckSequence (initialValue n : Z) : option (Z * Z) :=
  let iterationNbr := 1 in
  let it := primesieve_jump_to initialValue (initialValue + n * (n - 1)) in
  CheckSequence_loop (S (Z.to_nat n)) it initialValue iterationNbr n.

End Verifier.

(** ** Program 2: the forward strategy *)

Module Forward.

(** [upperBoundDiff = n*(n+1)/2], set in [main] (line 132). *)
Definition upperBoundDiff (n : Z) : Z := n * (n + 1) / 2.

(** The marking loop of [fillArrayOfPrimes] (lines 74-77). *)
Fixpoint markPrimes (fuel : nat) (it : iterator)
    (lastPrime offset primeSize : Z) (primeArray : list bool)
    : option (list bool) :=
  match fuel with
  | O => None
  | S f =>
      let pIndex := lastPrime - offset in
      if pIndex <? primeSize then
        match store primeArray pIndex true with
        | None => None
        | Some primeArray =>
            let '(lastPrime, it) := primesieve_next_prime it in
            markPrimes f it lastPrime offset primeSize primeArray
        end
      else Some primeArray
  end.

(** [fillArrayOfPrimes]; the global [upperBoundDiff] is an argument.  The
    array has [primeSize] cells (it is allocated on the first call and
    [primeSize] never changes), all cleared by the [for] loop. *)
Definition fillArrayOfPrimes (upperBoundDiff offset memSize : Z)
    : option (list bool) :=
  let primeSize := memSize + upperBoundDiff in
  let primeArray := replicate (Z.to_nat primeSize) false in
  let it := primesieve_jump_to offset (offset + primeSize) in
  let '(lastPrime, it) := primesieve_next_prime it in
  markPrimes (S (Z.to_nat primeSize)) it lastPrime offset primeSize primeArray.

(** The loop [while (i < n)] of [isCorrectValue]; [k] counts the iterations
    left, [n - i]. *)
Fixpoint isCorrectValue_loop (k : nat) (primeArray : list bool)
    (i valueOffset : Z) : option bool :=
  match k with
  | O => Some true
  | S k' =>
      let valueOffset := valueOffset + i in
      let i := i + 1 in
      match load primeArray valueOffset with
      | None => None
      | Some c =>
          if c then Some false
          else isCorrectValue_loop k' primeArray i valueOffset
      end
  end.

Definition isCorrectValue (primeArray : list bool) (offset value n : Z)
    : option bool :=
  isCorrectValue_loop (Z.to_nat n) primeArray 0 (value - offset).

(** The search loop of [main] (lines 137-145). *)
Fixpoint main_loop (fuel : nat) (n memSize : Z) (primeArray : list bool)
    (offset startValue : Z) : option Z :=
  match fuel with
  | O => None
  | S f =>
      match
        (if startValue - offset >=? memSize then
           match fillArrayOfPrimes (upperBoundDiff n) startValue memSize with
           | None => None
           | Some primeArray => Some (primeArray, startValue)
           end
         else Some (primeArray, offset))
      with
      | None => None
      | Some (primeArray, offset) =>
          match isCorrectValue primeArray offset startValue n with
          | None => None
          | Some res =>
              if res then Some startValue
              else main_loop f n memSize primeArray offset (startValue + 1)
          end
      end
  end.

(** [main] from line 136 on: first table at offset 0, then the loop. *)
Definition main (fuel : nat) (n memSize : Z) : option Z :=
  match fillArrayOfPrimes (upperBoundDiff n) 0 memSize with
  | None => None
  | Some primeArray => main_loop fuel n memSize primeArray 0 0
  end.

(** The loop of [main] on one table: the candidates of the window from
    [startValue] on, [k] of them being left; [-1] when the test
    [startValue - offset >= memSize] would ask for the next block. *)
Fixpoint scanWindow (k : nat) (n : Z) (primeArray : list bool)
    (offset startValue : Z) : option Z :=
  match k with
  | O => Some (-1)
  | S k' =>
      match isCorrectValue primeArray offset startValue n with
      | None => None
      | Some res =>
          if res then Some (startValue - offset)
          else scanWindow k' n primeArray offset (startValue + 1)
      end
  end.

(** The forward strategy on the window [[offset, offset + size)]. *)
Definition forwardWindow (offset n size : Z) : option Z :=
  match fillArrayOfPrimes (upperBoundDiff n) offset size with
  | None => None
  | Some primeArray => scanWindow (Z.to_nat size) n primeArray offset offset
  end.

End Forward.

(** ** Program 2_MT: the forward strategy on several threads *)

Module Threads.

(** The globals that the threads only read.  [fillArrayOfPrimes] and
    [isCorrectValue] have the text of program 2 with [globalOffset] and [n]
    taken from the globals, so the definitions of [Forward] are used. *)
Record globals := Globals {
  n : Z;
  memSize : Z;
  globalOffset : Z;
  numThreads : Z;
  primeArray : list bool
}.

(** Where a thread stands in [mainLoop].  The shared [bestValue] is read
    twice by the test [bestValue && bestValue < *startValue]: the two reads
    are two steps, and another thread may write between them. *)
Inductive thread : Type :=
  | AtLoop (startValue : Z)     (* at the test of the [while] *)
  | AtCompare (startValue : Z)  (* [bestValue] was non-zero, second read due *)
  | AtLock (startValue : Z)     (* left the loop in range, before the lock *)
  | Exited (ret : Z)            (* value handed to [pthread_join] *)
  | Fault.                      (* read outside [primeArray] *)

(** After the loop: lines 148-153. *)
Definition afterLoop (g : globals) (startValue : Z) : thread :=
  if startValue >=? memSize g + globalOffset g then Exited (-1)
  else AtLock startValue.

(** One step of a thread; the result is the thread and [bestValue]. *)
Definition step (g : globals) (bestValue : Z) (t : thread) : thread * Z :=
  match t with
  | AtLoop startValue =>
      if startValue <? memSize g + globalOffset g then
        match Forward.isCorrectValue (primeArray g) (globalOffset g)
                startValue (n g) with
        | None => (Fault, bestValue)
        | Some res =>
            if res then (afterLoop g startValue, bestValue)
            else if bestValue =? 0
            then (AtLoop (startValue + numThreads g), bestValue)
            else (AtCompare startValue, bestValue)
        end
      else (afterLoop g startValue, bestValue)
  | AtCompare startValue =>
      if bestValue <? startValue then (afterLoop g startValue, bestValue)
      else (AtLoop (startValue + numThreads g), bestValue)
  | AtLock startValue =>
      if (bestValue =? 0) || (startValue <? bestValue)
      then (Exited startValue, startValue)
      else (Exited startValue, bestValue)
  | Exited ret => (Exited ret, bestValue)
  | Fault => (Fault, bestValue)
  end.

(** [main], lines 222-225: thread [i] starts at [i + globalOffset]. *)
Definition spawn (g : globals) : list thread :=
  map (fun i : nat => AtLoop (Z.of_nat i + globalOffset g))
      (seq 0 (Z.to_nat (numThreads g))).

(** The scheduler picks thread [i] for one step. *)
Definition step_at (g : globals) (st : Z * list thread) (i : nat)
    : Z * list thread :=
  match snd st !! i with
  | None => st
  | Some t =>
      let '(t', bestValue) := step g (fst st) t in
      (bestValue, <[i := t']> (snd st))
  end.

Definition run (g : globals) (schedule : list nat) (st : Z * list thread)
    : Z * list thread :=
  fold_left (step_at g) schedule st.

Definition exited (t : thread) : bool :=
  match t with
  | Exited _ => true
  | _ => false
  end.

(** One pass of the loop of [main] (lines 221-232) under a schedule:
    [bestValue] once every thread is joined.  [None] when the schedule stops
    before all threads have exited, or on a fault. *)
Definition window (n memSize numThreads globalOffset bestValue : Z)
    (schedule : list nat) : option Z :=
  match Forward.fillArrayOfPrimes (Forward.upperBoundDiff n)
          globalOffset memSize with
  | None => None
  | Some primeArray =>
      let g := Globals n memSize globalOffset numThreads primeArray in
      let st := run g schedule (bestValue, spawn g) in
      if forallb exited (snd st) then Some (fst st) else None
  end.

(** The loop [while (!bestValue)] of [main], one schedule per pass. *)
Fixpoint main_loop (schedules : list (list nat))
    (n memSize numThreads globalOffset bestValue : Z) : option Z :=
  if bestValue =? 0 then
    match schedules with
    | [] => None
    | schedule :: schedules =>
        match window n memSize numThreads globalOffset bestValue
                schedule with
        | None => None
        | Some bestValue =>
            main_loop schedules n memSize numThreads
              (globalOffset + memSize) bestValue
        end
    end
  else Some bestValue.

(** The schedule that runs the threads of [order] one after the other, each
    for [steps] steps. *)
Definition one_by_one (steps : nat) (order : list nat) : list nat :=
  concat (map (fun i => repeat i steps) order).

End Threads.

(** ** Specifications *)

(** The result that both strategies owe for the window
    [[offset, offset + size)]: the least index of a valid start value, or
    [-1] when every candidate of the window has a prime term. *)
Definition window_answer (offset n size r : Z) : Prop :=
  (0 <= r < size /\ valid_start (offset + r) n /\
   forall k, 0 <= k < r -> has_prime_term (offset + k) n)
  \/ (r = -1 /\ forall k, 0 <= k < size -> has_prime_term (offset + k) n).

(** [v] is the least valid start value from [start] on. *)
Definition least_valid_from (start n v : Z) : Prop :=
  start <= v /\ valid_start v n /\
  forall A, start <= A < v -> has_prime_term A n.

(** Candidate [offset + k] has a term that is a prime below the iterator
    [pos]: the primes from [offset] up to [pos] are those already handed
    out by the prime source. *)
Definition ruled_out (offset n pos k : Z) : Prop :=
  exists i, 0 <= i < n /\ Z.prime (offset + k + T i) /\ offset + k + T i < pos.

(** Invariant of the outer loop of [processArray]. *)
Definition loop_inv (offset n size : Z) (arr : list bool) (psi pos : Z)
    : Prop :=
  Z.of_nat (length arr) = size /\ 0 <= psi < size /\ offset <= pos /\
  (forall k, 0 <= k < size ->
     (alive arr k = false <-> ruled_out offset n pos k)) /\
  (forall k, 0 <= k < psi -> alive arr k = false).

(** [tbl] is the Prime Indicator Table of [[offset, offset + len)]. *)
Definition prime_table (offset len : Z) (tbl : list bool) : Prop :=
  Z.of_nat (length tbl) = len /\
  forall j, 0 <= j < len -> load tbl j = Some (is_prime (offset + j)).

(** A thread that has not faulted and whose candidate, if it still has
    one, is not below the start of the window. *)
Definition thread_ok (g : Threads.globals) (t : Threads.thread) : Prop :=
  match t with
  | Threads.AtLoop startValue
  | Threads.AtCompare startValue
  | Threads.AtLock startValue => Threads.globalOffset g <= startValue
  | Threads.Exited _ => True
  | Threads.Fault => False
  end.

(** Decision procedures for the two predicates on start values. *)
Definition has_prime_termb (A n : Z) : bool :=
  existsb (fun i : nat => is_prime (A + T (Z.of_nat i))) (seq 0 (Z.to_nat n)).

Definition valid_startb (A n : Z) : bool := negb (has_prime_termb A n).

(** The candidates of thread [i] are [globalOffset + i + numThreads * q];
    those with [q] below the bound have a prime term. *)
Definition class_below (g : Threads.globals) (i : nat) (bound : Z) : Prop :=
  forall q, 0 <= q < bound ->
    has_prime_term
      (Threads.globalOffset g + Z.of_nat i + Threads.numThreads g * q)
      (Threads.n g).

(** What is known of thread [i] at each point of [mainLoop], given the
    current [bestValue]. *)
Definition thread_inv (g : Threads.globals) (bestValue : Z) (i : nat)
    (t : Threads.thread) : Prop :=
  match t with
  | Threads.AtLoop sv =>
      exists q, 0 <= q /\
        sv = Threads.globalOffset g + Z.of_nat i + Threads.numThreads g * q /\
        class_below g i q
  | Threads.AtCompare sv =>
      exists q, 0 <= q /\
        sv = Threads.globalOffset g + Z.of_nat i + Threads.numThreads g * q /\
        class_below g i (q + 1) /\ bestValue <> 0
  | Threads.AtLock sv =>
      exists q, 0 <= q /\
        sv = Threads.globalOffset g + Z.of_nat i + Threads.numThreads g * q /\
        class_below g i q /\
        sv < Threads.memSize g + Threads.globalOffset g /\
        (valid_start sv (Threads.n g) \/ (bestValue <> 0 /\ bestValue < sv))
  | Threads.Exited ret =>
      (ret = -1 /\
       forall q, 0 <= q ->
         Threads.globalOffset g + Z.of_nat i + Threads.numThreads g * q
           < Threads.memSize g + Threads.globalOffset g ->
         has_prime_term
           (Threads.globalOffset g + Z.of_nat i + Threads.numThreads g * q)
           (Threads.n g))
      \/ (exists q, 0 <= q /\
            ret = Threads.globalOffset g + Z.of_nat i
                  + Threads.numThreads g * q /\
            class_below g i q /\ bestValue <> 0 /\ bestValue <= ret)
  | Threads.Fault => False
  end.

(** Invariant of a pass of the coordinator: [bestValue] is 0 or a valid
    candidate of the window, and every thread satisfies [thread_inv]. *)
Definition coord_inv (g : Threads.globals) (st : Z * list Threads.thread)
    : Prop :=
  Z.of_nat (length (snd st)) = Threads.numThreads g /\
  (fst st = 0 \/
   (Threads.globalOffset g <= fst st
      < Threads.memSize g + Threads.globalOffset g /\
    valid_start (fst st) (Threads.n g))) /\
  forall i t, snd st !! i = Some t -> thread_inv g (fst st) i t.

(** ** The three programs after the parsing of the command line *)

Module Programs.

(** The line printed last: [SUCCESS! ... is the correct answer] or
    [ERROR: ... is prime (...) at iteration ...]. *)
Inductive verdict : Type :=
  | SUCCESS (startValue : Z)
  | ERROR (startValue res iter : Z).

(** The verification that ends [main] in the three programs. *)
Definition verify (startValue n : Z) : option verdict :=
  match Verifier.CheckSequence startValue n with
  | None => None
  | Some (res, iter) =>
      if res =? 0 then Some (SUCCESS startValue)
      else Some (ERROR startValue res iter)
  end.

(** [main] of program 1, lines 194-210. *)
Definition main_1 (fuel : nat) (n memSize startValue : Z) : option verdict :=
  match Backward.look4StartValue fuel startValue n memSize with
  | None => None
  | Some startValue => verify startValue n
  end.

(** [main] of program 2, lines 130-156. *)
Definition main_2 (fuel : nat) (n memSize : Z) : option verdict :=
  match Forward.main fuel n memSize with
  | None => None
  | Some startValue => verify startValue n
  end.

(** [main] of program 2_MT, lines 214-244: [globalOffset] and [bestValue]
    start at 0. *)
Definition main_2_MT (schedules : list (list nat)) (n memSize numThreads : Z)
    : option verdict :=
  match Threads.main_loop schedules n memSize numThreads 0 0 with
  | None => None
  | Some bestValue => verify bestValue n
  end.

End Programs.

(** A bound on the steps that a thread still takes before it exits. *)
Definition steps_left (g : Threads.globals) (t : Threads.thread) : nat :=
  match t with
  | Threads.AtLoop sv =>
      Z.to_nat
        (3 * Z.max 0 (Threads.memSize g + Threads.globalOffset g - sv) + 1)
  | Threads.AtCompare sv =>
      Z.to_nat
        (Z.max 2 (3 * (Threads.memSize g + Threads.globalOffset g - sv)))
  | Threads.AtLock _ => 1
  | Threads.Exited _ => 0
  | Threads.Fault => 0
  end.

(** Invariant of [processArray] started at the index [s]: as [loop_inv],
    for the cells from [s] on. *)
Definition loop_inv_from (offset n size s : Z) (arr : list bool)
    (psi pos : Z) : Prop :=
  Z.of_nat (length arr) = size /\ s <= psi < size /\ offset + s <= pos /\
  (forall k, s <= k < size ->
     (alive arr k = false <-> ruled_out offset n pos k)) /\
  (forall k, s <= k < psi -> alive arr k = false).

(** * Lemmas on the prime source *)

Lemma no_div_spec k : forall d p,
  no_div k d p = true <->
  (forall m, d <= m < d + Z.of_nat k -> p mod m <> 0).
Proof.
  induction k as [|k IH]; intros d p; simpl no_div.
  - split; [intros _ m Hm; lia | reflexivity].
  - rewrite andb_true_iff, negb_true_iff, Z.eqb_neq, IH. split.
    + intros [H0 H1] m Hm.
      destruct (Z.eq_dec m d) as [->|Hne]; [exact H0 | apply H1; lia].
    + intros H; split; [apply H; lia | intros m Hm; apply H; lia].
Qed.

Lemma is_prime_spec p : is_prime p = true <-> Z.prime p.
Proof.
  unfold is_prime, Z.prime.
  rewrite andb_true_iff, Z.leb_le, no_div_spec. split.
  - intros [H2 Hnd]; split; [lia|].
    intros m Hm Hdiv. apply (Hnd m); [lia|].
    apply Z.mod_divide; [lia | exact Hdiv].
  - intros [H1 Hnd]; split; [lia|].
    intros m Hm Hmod. apply (Hnd m); [lia|].
    apply Z.mod_divide; [lia | exact Hmod].
Qed.

Lemma is_prime_false p : is_prime p = false <-> ~ Z.prime p.
Proof.
  rewrite <- is_prime_spec. destruct (is_prime p); split; congruence.
Qed.

Lemma find_prime_spec fuel : forall x,
  match find_prime fuel x with
  | inl p => x <= p < x + Z.pos fuel /\ Z.prime p /\
             (forall q, x <= q < p -> ~ Z.prime q)
  | inr x' => x' = x + Z.pos fuel /\ (forall q, x <= q < x' -> ~ Z.prime q)
  end.
Proof.
  assert (Hone : forall x,
    match (if is_prime x then inl x else inr (x + 1) : Z + Z) with
    | inl p => x <= p < x + 1 /\ Z.prime p /\
               (forall q, x <= q < p -> ~ Z.prime q)
    | inr x' => x' = x + 1 /\ (forall q, x <= q < x' -> ~ Z.prime q)
    end).
  { intros x. destruct (is_prime x) eqn:E.
    - apply is_prime_spec in E. split; [lia | split; [exact E | intros q Hq; lia]].
    - apply is_prime_false in E. split; [reflexivity|].
      intros q Hq. replace q with x by lia. exact E. }
  induction fuel as [f IH | f IH |]; intros x; simpl find_prime.
  - specialize (IH x) as H1. destruct (find_prime f x) as [p|x1].
    + destruct H1 as (Hr & Hp & Hmin). split; [lia | split; assumption].
    + destruct H1 as (-> & Hno1). specialize (IH (x + Z.pos f)) as H2.
      destruct (find_prime f (x + Z.pos f)) as [p|x2].
      * destruct H2 as (Hr & Hp & Hmin). split; [lia | split; [assumption |]].
        intros q Hq. destruct (Z_lt_dec q (x + Z.pos f)).
        -- apply Hno1; lia.
        -- apply Hmin; lia.
      * destruct H2 as (-> & Hno2). specialize (Hone (x + Z.pos f + Z.pos f)).
        destruct (is_prime (x + Z.pos f + Z.pos f)).
        -- destruct Hone as (Hr & Hp & _). split; [lia | split; [assumption |]].
           intros q Hq. destruct (Z_lt_dec q (x + Z.pos f)).
           ++ apply Hno1; lia.
           ++ apply Hno2; lia.
        -- destruct Hone as (_ & Hlast). split; [lia|].
           intros q Hq. destruct (Z_lt_dec q (x + Z.pos f)).
           ++ apply Hno1; lia.
           ++ destruct (Z_lt_dec q (x + Z.pos f + Z.pos f)).
              ** apply Hno2; lia.
              ** apply Hlast; lia.
  - specialize (IH x) as H1. destruct (find_prime f x) as [p|x1].
    + destruct H1 as (Hr & Hp & Hmin). split; [lia | split; assumption].
    + destruct H1 as (-> & Hno1). specialize (IH (x + Z.pos f)) as H2.
      destruct (find_prime f (x + Z.pos f)) as [p|x2].
      * destruct H2 as (Hr & Hp & Hmin). split; [lia | split; [assumption |]].
        intros q Hq. destruct (Z_lt_dec q (x + Z.pos f)).
        -- apply Hno1; lia.
        -- apply Hmin; lia.
      * destruct H2 as (-> & Hno2). split; [lia|].
        intros q Hq. destruct (Z_lt_dec q (x + Z.pos f)).
        -- apply Hno1; lia.
        -- apply Hno2; lia.
  - apply Hone.
Qed.

Lemma no_div_false k : forall d p,
  no_div k d p = false ->
  exists m, d <= m < d + Z.of_nat k /\ p mod m = 0.
Proof.
  induction k as [|k IH]; intros d p; simpl no_div; [discriminate|].
  intros H. apply andb_false_iff in H as [H|H].
  - apply negb_false_iff, Z.eqb_eq in H. exists d. split; [lia | exact H].
  - destruct (IH _ _ H) as (m & Hm & Hmod). exists m. split; [lia | exact Hmod].
Qed.

(** Every integer from 2 on has a prime divisor. *)
Lemma prime_factor : forall N, 2 <= N -> exists p, Z.prime p /\ (p | N).
Proof.
  intros N. induction N as [N IH] using (well_founded_induction (Z.lt_wf 0)).
  intros HN.
  destruct (is_prime N) eqn:E.
  - exists N. split; [now apply is_prime_spec | apply Z.divide_refl].
  - unfold is_prime in E. apply andb_false_iff in E as [E|E].
    + apply Z.leb_gt in E. lia.
    + assert (Hd : exists d, 2 <= d < N /\ (d | N)).
      { destruct (no_div_false (Z.to_nat (N - 2)) 2 N E) as (d & Hd & Hm).
        exists d. split; [lia|]. apply Z.mod_divide; [lia | exact Hm]. }
      destruct Hd as (d & Hd & Hdiv).
      destruct (IH d) as (p & Hp & Hpd); [lia | lia |].
      exists p. split; [exact Hp | now apply Z.divide_trans with d].
Qed.

Lemma zfact_pos k : 1 <= zfact k.
Proof. induction k as [|k IH]; simpl zfact; [lia | nia]. Qed.

Lemma zfact_divide k : forall d, 1 <= d <= Z.of_nat k -> (d | zfact k).
Proof.
  induction k as [|k IH]; intros d Hd; [lia|].
  change (zfact (S k)) with (Z.of_nat (S k) * zfact k).
  destruct (Z.eq_dec d (Z.of_nat (S k))) as [->|Hne].
  - apply Z.divide_factor_l.
  - apply Z.divide_mul_r, IH. lia.
Qed.

(** Euclid: there is a prime above every [x], and not beyond [x! + 1]. *)
Lemma prime_above x :
  0 <= x -> exists p, Z.prime p /\ x < p <= zfact (Z.to_nat x) + 1.
Proof.
  intros Hx. pose proof (zfact_pos (Z.to_nat x)) as Hf.
  destruct (prime_factor (zfact (Z.to_nat x) + 1)) as (p & Hp & Hdiv); [lia|].
  exists p. split; [exact Hp|]. pose proof Hp as [Hp1 _]. split.
  - destruct (Z_lt_dec x p) as [|Hle]; [assumption | exfalso].
    assert (Hpf : (p | zfact (Z.to_nat x))) by (apply zfact_divide; lia).
    assert (H1 : (p | 1)).
    { replace 1 with (zfact (Z.to_nat x) + 1 - zfact (Z.to_nat x)) by lia.
      now apply Z.divide_sub_r. }
    apply Z.divide_1_r_nonneg in H1; lia.
  - apply Z.divide_pos_le; [lia | exact Hdiv].
Qed.

(** [first_prime_from x] is the smallest prime at or above [x]. *)
Lemma first_prime_from_spec x :
  Z.prime (first_prime_from x) /\ x <= first_prime_from x /\
  (forall q, x <= q < first_prime_from x -> ~ Z.prime q).
Proof.
  unfold first_prime_from.
  set (x0 := Z.max x 2).
  destruct (prime_above x0) as (p0 & Hp0 & Hr0); [lia|].
  pose proof (zfact_pos (Z.to_nat x0)) as Hf.
  pose proof (find_prime_spec (Z.to_pos (zfact (Z.to_nat x0) + 2)) x0) as H.
  rewrite Z2Pos.id in H by lia.
  destruct (find_prime _ x0) as [p|x'].
  - destruct H as (Hr & Hp & Hmin). split; [exact Hp|]. split; [lia|].
    intros q Hq Hprime. destruct Hprime as [Hq1 Hq2].
    apply (Hmin q); [lia | split; assumption].
  - destruct H as (-> & Hno). exfalso. apply (Hno p0); [lia | exact Hp0].
Qed.

Lemma next_prime_prime it : Z.prime (fst (primesieve_next_prime it)).
Proof. apply first_prime_from_spec. Qed.

Lemma next_prime_ge it : it <= fst (primesieve_next_prime it).
Proof. apply first_prime_from_spec. Qed.

Lemma next_prime_least it q :
  it <= q -> Z.prime q -> fst (primesieve_next_prime it) <= q.
Proof.
  intros Hq Hp. destruct (Z_le_dec (first_prime_from it) q) as [|Hn];
    [assumption | exfalso].
  apply (proj2 (proj2 (first_prime_from_spec it)) q); [simpl in *; lia | exact Hp].
Qed.

Lemma next_prime_iterator it :
  snd (primesieve_next_prime it) = fst (primesieve_next_prime it) + 1.
Proof. reflexivity. Qed.

(** ** Triangular numbers *)

Lemma T_succ i : T (i + 1) = T i + (i + 1).
Proof.
  unfold T. replace ((i + 1) * (i + 1 + 1)) with (i * (i + 1) + (i + 1) * 2) by ring.
  rewrite Z.div_add by lia. reflexivity.
Qed.

Lemma T_0 : T 0 = 0.
Proof. reflexivity. Qed.

Lemma T_nonneg i : 0 <= i -> 0 <= T i.
Proof. intros H. unfold T. apply Z.div_pos; nia. Qed.

Lemma T_mono i j : 0 <= i <= j -> T i <= T j.
Proof.
  intros [Hi Hij]. unfold T. apply Z.div_le_mono; nia.
Qed.

(** ** Array cells *)

Lemma alive_insert_false (arr : list bool) (a c : Z) :
  0 <= a < Z.of_nat (length arr) -> 0 <= c ->
  alive (<[Z.to_nat a := false]> arr) c =
  if c =? a then false else alive arr c.
Proof.
  intros Ha Hc. unfold alive. destruct (Z.eqb_spec c a) as [->|Hne].
  - rewrite list_lookup_insert_eq by lia. reflexivity.
  - rewrite list_lookup_insert_ne by lia. reflexivity.
Qed.

Lemma alive_replicate_true (size c : Z) :
  0 <= c < size -> alive (replicate (Z.to_nat size) true) c = true.
Proof.
  intros Hc. unfold alive. rewrite lookup_replicate_2 by lia. reflexivity.
Qed.

(** ** The backward strategy *)

Lemma ruleOut_length k : forall i size op (arr : list bool),
  length (Backward.ruleOut k i size op arr) = length arr.
Proof.
  induction k as [|k IH]; intros i size op arr; simpl; [reflexivity|].
  destruct (op - i <? 0); [reflexivity|].
  destruct (op - i >=? size); rewrite IH; [reflexivity|].
  apply length_insert.
Qed.

(** What one pass of the inner loop does to a cell of the window: the cell
    [c] is cleared when [c = P - T j] for one of the indices [j] that the
    loop runs through, and is left as it was otherwise. *)
Lemma ruleOut_alive k : forall i size P (arr : list bool) c,
  0 <= i -> 0 <= c < size -> Z.of_nat (length arr) = size ->
  (alive (Backward.ruleOut k i size (P - T i + i) arr) c = false <->
   alive arr c = false \/
   exists j, i <= j < i + Z.of_nat k /\ c = P - T j).
Proof.
  induction k as [|k IH]; intros i size P arr c Hi Hc Hlen.
  - simpl. split; [intros H; left; exact H | intros [H|(j & Hj & _)]; [exact H | lia]].
  - simpl Backward.ruleOut.
    replace (P - T i + i - i) with (P - T i) by lia.
    assert (Hnext : P - T i = P - T (i + 1) + (i + 1)) by (rewrite T_succ; lia).
    destruct (Z.ltb_spec (P - T i) 0) as [Hneg|Hpos].
    + split; [intros H; left; exact H|]. intros [H|(j & Hj & Hcj)]; [exact H|].
      assert (T i <= T j) by (apply T_mono; lia). lia.
    + destruct (Z.geb_spec (P - T i) size) as [Hge|Hlt].
      * rewrite Hnext, IH by (try assumption; lia).
        split; (intros [Ha|(j & Hj & Hcj)]; [left; exact Ha | right]).
        -- exists j. split; [lia | exact Hcj].
        -- destruct (Z.eq_dec j i) as [->|Hne]; [lia|].
           exists j. split; [lia | exact Hcj].
      * rewrite Hnext, IH; try assumption; try lia.
        2:{ rewrite length_insert. exact Hlen. }
        rewrite <- Hnext, alive_insert_false by lia.
        destruct (Z.eqb_spec c (P - T i)) as [Heq|Hne].
        -- split; [|intros _; left; reflexivity].
           intros _. right. exists i. split; [lia | exact Heq].
        -- split; (intros [Ha|(j & Hj & Hcj)]; [left; exact Ha | right]).
           ++ exists j. split; [lia | exact Hcj].
           ++ destruct (Z.eq_dec j i) as [->|Hnej]; [lia|].
              exists j. split; [lia | exact Hcj].
Qed.

Lemma skipRuledOut_spec fuel : forall psi size (arr : list bool),
  0 <= psi < size -> (Z.to_nat (size - psi) <= fuel)%nat ->
  exists psi', Backward.skipRuledOut fuel psi size arr = Some psi' /\
    psi < psi' <= size /\
    (forall k, psi < k < psi' -> alive arr k = false) /\
    (psi' < size -> alive arr psi' = true).
Proof.
  induction fuel as [|f IH]; intros psi size arr Hpsi Hfuel; [lia|].
  simpl Backward.skipRuledOut.
  destruct (Z.ltb_spec (psi + 1) size) as [Hlt|Hge]; simpl andb.
  - destruct (alive arr (psi + 1)) eqn:Ea; simpl negb.
    + exists (psi + 1). split; [reflexivity|]. split; [lia|].
      split; [intros k Hk; lia | intros _; exact Ea].
    + destruct (IH (psi + 1) size arr) as (psi' & Hrun & Hr & Hdead & Hal);
        [lia | lia |].
      exists psi'. split; [exact Hrun|]. split; [lia|]. split; [|exact Hal].
      intros k Hk. destruct (Z.eq_dec k (psi + 1)) as [->|Hne];
        [exact Ea | apply Hdead; lia].
  - exists (psi + 1). split; [reflexivity|]. split; [lia|].
    split; [intros k Hk; lia | intros Hc; lia].
Qed.

Lemma valid_not_prime_term A n :
  valid_start A n -> has_prime_term A n -> False.
Proof. intros Hv (i & Hi & Hp). exact (Hv i Hi Hp). Qed.


Section BackwardWindow.

Variables offset n size : Z.
Hypothesis n_pos : 1 <= n.
Hypothesis size_pos : 1 <= size.

Lemma ruled_out_step pos k :
  0 <= k -> offset <= pos ->
  (ruled_out offset n (first_prime_from pos + 1) k <->
   ruled_out offset n pos k \/
   exists j, 0 <= j < 0 + Z.of_nat (Z.to_nat (n - 1 + 1)) /\
             k = first_prime_from pos - offset - T j).
Proof.
  intros Hk Hpos.
  destruct (first_prime_from_spec pos) as (Hp & Hge & Hleast).
  split.
  - intros (i & Hi & Hprime & Hlt).
    destruct (Z_lt_dec (offset + k + T i) pos) as [Hbelow|Habove].
    + left. exists i. split; [exact Hi | split; assumption].
    + right. exists i. split; [lia|].
      destruct (Z.eq_dec (offset + k + T i) (first_prime_from pos)) as [He|Hne];
        [lia | exfalso].
      apply (Hleast (offset + k + T i)); [lia | exact Hprime].
  - intros [(i & Hi & Hprime & Hlt)|(j & Hj & Hkj)].
    + exists i. split; [exact Hi | split; [exact Hprime | lia]].
    + exists j. split; [lia|].
      replace (offset + k + T j) with (first_prime_from pos) by lia.
      split; [exact Hp | lia].
Qed.

Lemma ruled_out_has_prime_term pos k :
  ruled_out offset n pos k -> has_prime_term (offset + k) n.
Proof. intros (i & Hi & Hp & _). exists i. split; assumption. Qed.

Lemma processArray_loop_correct fuel : forall arr psi pos,
  loop_inv offset n size arr psi pos ->
  (Z.to_nat (offset + size + T (n - 1) - pos) < fuel)%nat ->
  exists r,
    Backward.processArray_loop fuel pos arr offset (n - 1) size
      (T (n - 1)) psi = Some r /\
    window_answer offset n size r.
Proof.
  induction fuel as [|f IH]; intros arr psi pos Hinv Hfuel; [lia|].
  destruct Hinv as (Hlen & Hpsi & Hpos & Hcells & Hbelow).
  destruct (first_prime_from_spec pos) as (Hp & Hge & Hleast).
  pose proof (T_nonneg (n - 1) ltac:(lia)) as HT.
  simpl Backward.processArray_loop. cbv zeta.
  set (p := first_prime_from pos) in *.
  set (arr1 := Backward.ruleOut (Z.to_nat (n - 1 + 1)) 0 size
                 (p - offset) arr).
  assert (Hlen1 : Z.of_nat (length arr1) = size)
    by (unfold arr1; rewrite ruleOut_length; exact Hlen).
  (* the cells after the pass for the prime [p] *)
  assert (Hcells1 : forall k, 0 <= k < size ->
            (alive arr1 k = false <-> ruled_out offset n (p + 1) k)).
  { intros k Hk. unfold arr1, p. rewrite ruled_out_step by lia.
    rewrite <- (Hcells k Hk).
    pose proof (ruleOut_alive (Z.to_nat (n - 1 + 1)) 0 size
                  (first_prime_from pos - offset) arr k
                  ltac:(lia) Hk Hlen) as Hr.
    rewrite T_0 in Hr.
    replace (first_prime_from pos - offset - 0 + 0)
      with (first_prime_from pos - offset) in Hr by lia.
    exact Hr. }
  assert (Hbelow1 : forall k, 0 <= k < psi -> alive arr1 k = false).
  { intros k Hk. apply Hcells1; [lia|]. apply ruled_out_step; [lia | lia |].
    left. apply Hcells; [lia | apply Hbelow; exact Hk]. }
  (* what happens once the smallest possible index [q] is settled *)
  assert (Hagain : forall q, 0 <= q < size -> alive arr1 q = true ->
            (forall k, 0 <= k < q -> alive arr1 k = false) ->
            exists r,
              (if q + T (n - 1) >=? p - offset
               then Backward.processArray_loop f (p + 1) arr1 offset (n - 1)
                      size (T (n - 1)) q
               else Some q) = Some r /\
              window_answer offset n size r).
  { intros q Hq Halive Hdead.
    destruct (Z.geb_spec (q + T (n - 1)) (p - offset)) as [Hcont|Hstop].
    - apply IH; [|lia].
      split; [exact Hlen1|]. split; [exact Hq|]. split; [lia|].
      split; [exact Hcells1 | exact Hdead].
    - exists q. split; [reflexivity|]. left. split; [exact Hq|]. split.
      + intros i Hi Hprime.
        assert (Hr : ruled_out offset n (p + 1) q).
        { exists i. split; [exact Hi|]. split; [exact Hprime|].
          assert (T i <= T (n - 1)) by (apply T_mono; lia). lia. }
        apply Hcells1 in Hr; [congruence | exact Hq].
      + intros k Hk. apply (ruled_out_has_prime_term (p + 1)).
        apply Hcells1; [lia | apply Hdead; exact Hk]. }
  destruct (alive arr1 psi) eqn:Epsi; simpl negb; cbv iota.
  - apply Hagain; assumption.
  - destruct (skipRuledOut_spec (Z.to_nat size) psi size arr1 Hpsi ltac:(lia))
      as (psi' & Hrun & Hr & Hdead & Hal).
    rewrite Hrun.
    assert (Hall : forall k, 0 <= k < psi' -> alive arr1 k = false).
    { intros k Hk. destruct (Z.lt_trichotomy k psi) as [Hlt|[->|Hgt]].
      - apply Hbelow1; lia.
      - exact Epsi.
      - apply Hdead; lia. }
    destruct (Z.eqb_spec psi' size) as [->|Hne].
    + exists (-1). split; [reflexivity|]. right. split; [reflexivity|].
      intros k Hk. apply (ruled_out_has_prime_term (p + 1)).
      apply Hcells1; [exact Hk | apply Hall; exact Hk].
    + apply Hagain; [lia | apply Hal; lia | exact Hall].
Qed.

End BackwardWindow.

Lemma initArray_inv offset n size :
  1 <= size -> loop_inv offset n size (Backward.initArray size) 0 (offset + 0).
Proof.
  intros Hsize. unfold loop_inv, Backward.initArray.
  split; [rewrite length_replicate; lia|]. split; [lia|]. split; [lia|].
  split; [|intros k Hk; lia].
  intros k Hk. rewrite alive_replicate_true by lia.
  split; [discriminate|]. intros (i & Hi & _ & Hlt).
  pose proof (T_nonneg i ltac:(lia)). lia.
Qed.

Lemma processArray_correct offset n size :
  0 <= offset -> 1 <= n -> 1 <= size ->
  exists r,
    Backward.processArray (Backward.initArray size) offset 0 n size = Some r /\
    window_answer offset n size r.
Proof.
  intros Hoff Hn Hsize. unfold Backward.processArray, primesieve_jump_to.
  pose proof (T_nonneg (n - 1) ltac:(lia)) as HT.
  apply (processArray_loop_correct offset n size Hn Hsize).
  - apply initArray_inv. exact Hsize.
  - fold (T (n - 1)). lia.
Qed.

Lemma window_answer_exhausted offset n size r :
  window_answer offset n size r ->
  (r = -1 <-> forall k, 0 <= k < size -> has_prime_term (offset + k) n).
Proof.
  intros [(Hr & Hv & _)|(-> & Hall)].
  - split; [lia|]. intros Hall. exfalso.
    apply (valid_not_prime_term _ _ Hv), Hall. exact Hr.
  - split; [intros _; exact Hall | reflexivity].
Qed.

(** ** Valid start values exist *)

Lemma zfact_ge k : Z.of_nat k <= zfact k.
Proof.
  destruct k as [|k]; [simpl; lia|].
  change (zfact (S k)) with (Z.of_nat (S k) * zfact k).
  pose proof (zfact_pos k). nia.
Qed.

(** After [K! + 2] come [K - 1] integers in a row that are not prime, which
    gives a valid start value above any bound. *)
Lemma valid_start_exists n start :
  0 <= start -> 1 <= n -> exists A, start <= A /\ valid_start A n.
Proof.
  intros Hs Hn. pose proof (T_nonneg (n - 1) ltac:(lia)) as HT.
  set (K := Z.to_nat (start + T (n - 1) + 2)).
  exists (zfact K + 2). pose proof (zfact_ge K) as Hge.
  pose proof (zfact_pos K) as Hpos. split; [lia|].
  intros i Hi [_ Hprime].
  assert (HTi : 0 <= T i <= T (n - 1))
    by (split; [apply T_nonneg | apply T_mono]; lia).
  apply (Hprime (2 + T i)); [lia|].
  replace (zfact K + 2 + T i) with (zfact K + (2 + T i)) by lia.
  apply Z.divide_add_r; [apply zfact_divide; lia | apply Z.divide_refl].
Qed.

Lemma least_valid_unique start n v1 v2 :
  least_valid_from start n v1 -> least_valid_from start n v2 -> v1 = v2.
Proof.
  intros (Hs1 & Hv1 & Hb1) (Hs2 & Hv2 & Hb2).
  destruct (Z.lt_trichotomy v1 v2) as [Hlt|[Heq|Hgt]]; [exfalso | exact Heq | exfalso].
  - apply (valid_not_prime_term _ _ Hv1), Hb2. lia.
  - apply (valid_not_prime_term _ _ Hv2), Hb1. lia.
Qed.

(** ** The Segment Manager of program 1 *)

Lemma look4StartValue_sound n size fuel : forall start v,
  1 <= n -> 1 <= size -> 0 <= start ->
  Backward.look4StartValue fuel start n size = Some v ->
  least_valid_from start n v.
Proof.
  induction fuel as [|f IH]; intros start v Hn Hsize Hstart; [discriminate|].
  simpl Backward.look4StartValue.
  destruct (processArray_correct start n size Hstart Hn Hsize) as (r & -> & Hr).
  destruct Hr as [(Hr & Hv & Hb)|(-> & Hall)].
  - destruct (Z.geb_spec r 0) as [_|]; [|lia]. intros [= <-].
    split; [lia|]. split; [replace (r + start) with (start + r) by lia; exact Hv|].
    intros A HA. replace A with (start + (A - start)) by lia. apply Hb. lia.
  - simpl. intros Hrun. apply IH in Hrun; [|lia..].
    destruct Hrun as (Hs & Hv & Hb). split; [lia|]. split; [exact Hv|].
    intros A HA. destruct (Z_lt_dec A (start + size)) as [Hin|Hout].
    + replace A with (start + (A - start)) by lia. apply Hall. lia.
    + apply Hb. lia.
Qed.

Lemma look4StartValue_returns n size fuel : forall start A,
  1 <= n -> 1 <= size -> 0 <= start ->
  start <= A -> valid_start A n -> (Z.to_nat (A - start) < fuel)%nat ->
  exists v, Backward.look4StartValue fuel start n size = Some v.
Proof.
  induction fuel as [|f IH]; intros start A Hn Hsize Hstart HA Hv Hfuel; [lia|].
  simpl Backward.look4StartValue.
  destruct (processArray_correct start n size Hstart Hn Hsize) as (r & -> & Hr).
  destruct Hr as [(Hr & _)|(-> & Hall)].
  - destruct (Z.geb_spec r 0) as [_|]; [|lia]. eexists; reflexivity.
  - simpl. destruct (Z_lt_dec A (start + size)) as [Hin|Hout].
    + exfalso. apply (valid_not_prime_term _ _ Hv).
      replace A with (start + (A - start)) by lia. apply Hall. lia.
    + apply (IH (start + size) A); try assumption; lia.
Qed.

(** ** The forward strategy *)

Lemma load_store (arr arr' : list bool) (a c : Z) v :
  store arr a v = Some arr' -> 0 <= c ->
  load arr' c = if c =? a then Some v else load arr c.
Proof.
  unfold store, load. intros Hst Hc.
  destruct ((0 <=? a) && (a <? Z.of_nat (length arr))) eqn:E; [|discriminate].
  apply andb_true_iff in E as [Ha1 Ha2].
  apply Z.leb_le in Ha1. apply Z.ltb_lt in Ha2. injection Hst as <-.
  destruct (Z.ltb_spec c 0) as [|_]; [lia|].
  destruct (Z.eqb_spec c a) as [->|Hne].
  - rewrite list_lookup_insert_eq by lia. reflexivity.
  - rewrite list_lookup_insert_ne by lia. reflexivity.
Qed.

Lemma store_in_range (arr : list bool) (a : Z) v :
  0 <= a < Z.of_nat (length arr) ->
  exists arr', store arr a v = Some arr' /\ length arr' = length arr.
Proof.
  intros Ha. unfold store.
  destruct (Z.leb_spec 0 a) as [_|]; [|lia].
  destruct (Z.ltb_spec a (Z.of_nat (length arr))) as [_|]; [|lia].
  eexists. split; [reflexivity | apply length_insert].
Qed.

Lemma load_replicate (len c : Z) (v : bool) :
  0 <= c < len -> load (replicate (Z.to_nat len) v) c = Some v.
Proof.
  intros Hc. unfold load. destruct (Z.ltb_spec c 0) as [|_]; [lia|].
  apply lookup_replicate_2. lia.
Qed.

Lemma upperBoundDiff_T n : Forward.upperBoundDiff n = T n.
Proof. reflexivity. Qed.

Lemma T_pred n : T n = T (n - 1) + n.
Proof. replace n with (n - 1 + 1) at 1 by lia. rewrite T_succ. lia. Qed.

Lemma markPrimes_correct offset len fuel : forall it lastPrime arr,
  Z.prime lastPrime -> offset <= lastPrime -> it = lastPrime + 1 ->
  Z.of_nat (length arr) = len ->
  (forall j, 0 <= j < len ->
     load arr j = Some (is_prime (offset + j) && (offset + j <? lastPrime))) ->
  (Z.to_nat (offset + len - lastPrime) < fuel)%nat ->
  exists tbl,
    Forward.markPrimes fuel it lastPrime offset len arr = Some tbl /\
    prime_table offset len tbl.
Proof.
  induction fuel as [|f IH];
    intros it lastPrime arr Hprime Hge -> Hlen Hcells Hfuel; [lia|].
  simpl Forward.markPrimes.
  destruct (Z.ltb_spec (lastPrime - offset) len) as [Hin|Hout].
  - destruct (store_in_range arr (lastPrime - offset) true ltac:(lia))
      as (arr' & Hst & Hlen').
    rewrite Hst.
    destruct (first_prime_from_spec (lastPrime + 1)) as (Hp' & Hge' & Hleast').
    apply IH; try assumption; try lia; try reflexivity.
    intros j Hj. rewrite (load_store _ _ _ _ _ Hst) by lia.
    destruct (Z.eqb_spec j (lastPrime - offset)) as [->|Hne].
    + replace (offset + (lastPrime - offset)) with lastPrime by lia.
      apply is_prime_spec in Hprime. rewrite Hprime.
      destruct (Z.ltb_spec lastPrime (first_prime_from (lastPrime + 1)));
        [reflexivity | lia].
    + rewrite Hcells by lia. f_equal.
      destruct (Z.ltb_spec (offset + j) lastPrime) as [Hlt|Hgt].
      * destruct (Z.ltb_spec (offset + j) (first_prime_from (lastPrime + 1)));
          [reflexivity | lia].
      * rewrite andb_false_r.
        destruct (Z.ltb_spec (offset + j) (first_prime_from (lastPrime + 1)))
          as [Hlt'|_]; [|rewrite andb_false_r; reflexivity].
        rewrite andb_true_r. symmetry. apply is_prime_false.
        apply Hleast'. lia.
  - exists arr. split; [reflexivity|]. split; [exact Hlen|].
    intros j Hj. rewrite Hcells by lia.
    destruct (Z.ltb_spec (offset + j) lastPrime); [|lia].
    rewrite andb_true_r. reflexivity.
Qed.

Lemma fillArrayOfPrimes_correct ubd offset memSize :
  0 <= ubd -> 1 <= memSize ->
  exists tbl,
    Forward.fillArrayOfPrimes ubd offset memSize = Some tbl /\
    prime_table offset (memSize + ubd) tbl.
Proof.
  intros Hubd Hmem. unfold Forward.fillArrayOfPrimes, primesieve_jump_to.
  simpl primesieve_next_prime. cbv iota beta.
  destruct (first_prime_from_spec offset) as (Hp & Hge & Hleast).
  apply markPrimes_correct; try assumption; try reflexivity.
  - rewrite length_replicate. lia.
  - intros j Hj. rewrite load_replicate by lia. f_equal. symmetry.
    destruct (Z.ltb_spec (offset + j) (first_prime_from offset)) as [Hlt|_];
      [|apply andb_false_r].
    rewrite andb_true_r. apply is_prime_false, Hleast. lia.
  - lia.
Qed.

(** The test of one candidate: [v] is [value - offset]. *)
Lemma isCorrectValue_loop_correct offset len tbl v k : forall i,
  prime_table offset len tbl -> 0 <= i ->
  (forall j, i <= j < i + Z.of_nat k -> 0 <= v + T j < len) ->
  exists b : bool,
    Forward.isCorrectValue_loop k tbl i (v + T i - i) = Some b /\
    if b
    then forall j, i <= j < i + Z.of_nat k -> ~ Z.prime (offset + v + T j)
    else exists j, i <= j < i + Z.of_nat k /\ Z.prime (offset + v + T j).
Proof.
  induction k as [|k IH]; intros i Htbl Hi Hrange.
  - exists true. split; [reflexivity|]. intros j Hj; lia.
  - simpl Forward.isCorrectValue_loop.
    replace (v + T i - i + i) with (v + T i) by lia.
    destruct Htbl as [Hlen Hcells].
    rewrite Hcells by (apply Hrange; lia).
    replace (offset + (v + T i)) with (offset + v + T i) by lia.
    destruct (is_prime (offset + v + T i)) eqn:E.
    + exists false. split; [reflexivity|].
      exists i. split; [lia | apply is_prime_spec; exact E].
    + destruct (IH (i + 1)) as (b & Hrun & Hb);
        [split; assumption | lia | intros j Hj; apply Hrange; lia |].
      exists b. split.
      * rewrite <- Hrun. f_equal. rewrite T_succ. lia.
      * destruct b.
        -- intros j Hj. destruct (Z.eq_dec j i) as [->|Hne];
             [apply is_prime_false; exact E | apply Hb; lia].
        -- destruct Hb as (j & Hj & Hp). exists j. split; [lia | exact Hp].
Qed.

Lemma isCorrectValue_correct offset memSize n tbl value :
  1 <= n -> prime_table offset (memSize + T n) tbl ->
  offset <= value < offset + memSize ->
  exists b : bool,
    Forward.isCorrectValue tbl offset value n = Some b /\
    if b then valid_start value n else has_prime_term value n.
Proof.
  intros Hn Htbl Hvalue. unfold Forward.isCorrectValue.
  destruct (isCorrectValue_loop_correct offset (memSize + T n) tbl
              (value - offset) (Z.to_nat n) 0 Htbl ltac:(lia))
    as (b & Hrun & Hb).
  - intros j Hj. pose proof (T_nonneg j ltac:(lia)).
    assert (T j <= T (n - 1)) by (apply T_mono; lia).
    rewrite (T_pred n). lia.
  - exists b. split.
    + rewrite <- Hrun. f_equal. rewrite T_0. lia.
    + destruct b.
      * intros j Hj.
        replace (value + T j) with (offset + (value - offset) + T j) by lia.
        apply Hb. lia.
      * destruct Hb as (j & Hj & Hp). exists j. split; [lia|].
        replace (value + T j) with (offset + (value - offset) + T j) by lia.
        exact Hp.
Qed.



(** ** The search loop of program 2 *)

(** Invariant of the loop of [main]: the table is the one of the block that
    starts at [offset], [startValue] is in that block or just after it, and
    no value below [startValue] is valid. *)
Lemma main_loop_sound n memSize fuel : forall tbl offset startValue v,
  1 <= n -> 1 <= memSize ->
  prime_table offset (memSize + T n) tbl ->
  0 <= offset <= startValue -> startValue <= offset + memSize ->
  (forall c, 0 <= c < startValue -> has_prime_term c n) ->
  Forward.main_loop fuel n memSize tbl offset startValue = Some v ->
  least_valid_from 0 n v /\ startValue <= v.
Proof.
  induction fuel as [|f IH];
    intros tbl offset sv v Hn Hmem Htbl Hoff Hsv Hbelow; [discriminate|].
  simpl Forward.main_loop.
  pose proof (T_nonneg n ltac:(lia)) as HT.
  assert (Hstep : forall tbl' offset',
            prime_table offset' (memSize + T n) tbl' ->
            0 <= offset' <= sv -> sv < offset' + memSize ->
            match Forward.isCorrectValue tbl' offset' sv n with
            | Some res =>
                if res then Some sv
                else Forward.main_loop f n memSize tbl' offset' (sv + 1)
            | None => None
            end = Some v -> least_valid_from 0 n v /\ sv <= v).
  { intros tbl' offset' Htbl' Hoff' Hsv'.
    destruct (isCorrectValue_correct offset' memSize n tbl' sv Hn Htbl'
                ltac:(lia)) as (b & -> & Hb).
    destruct b.
    - intros [= <-]. split; [|lia]. split; [lia|]. split; [exact Hb|].
      intros c Hc. apply Hbelow. lia.
    - intros Hrun. apply IH in Hrun; try assumption; try lia.
      + split; [apply Hrun | lia].
      + intros c Hc. destruct (Z.eq_dec c sv) as [->|Hne];
          [exact Hb | apply Hbelow; lia]. }
  destruct (Z.geb_spec (sv - offset) memSize) as [Hfull|Hin].
  - destruct (fillArrayOfPrimes_correct (Forward.upperBoundDiff n) sv memSize)
      as (tbl' & -> & Htbl'); [rewrite upperBoundDiff_T; exact HT | exact Hmem |].
    rewrite upperBoundDiff_T in Htbl'. apply Hstep; [exact Htbl' | lia | lia].
  - apply Hstep; [exact Htbl | lia | lia].
Qed.

Lemma main_loop_returns n memSize fuel : forall tbl offset startValue A,
  1 <= n -> 1 <= memSize ->
  prime_table offset (memSize + T n) tbl ->
  0 <= offset <= startValue -> startValue <= offset + memSize ->
  startValue <= A -> valid_start A n ->
  (Z.to_nat (A - startValue) < fuel)%nat ->
  exists v, Forward.main_loop fuel n memSize tbl offset startValue = Some v.
Proof.
  induction fuel as [|f IH];
    intros tbl offset sv A Hn Hmem Htbl Hoff Hsv HA Hv Hfuel; [lia|].
  simpl Forward.main_loop.
  pose proof (T_nonneg n ltac:(lia)) as HT.
  assert (Hstep : forall tbl' offset',
            prime_table offset' (memSize + T n) tbl' ->
            0 <= offset' <= sv -> sv < offset' + memSize ->
            exists v,
            match Forward.isCorrectValue tbl' offset' sv n with
            | Some res =>
                if res then Some sv
                else Forward.main_loop f n memSize tbl' offset' (sv + 1)
            | None => None
            end = Some v).
  { intros tbl' offset' Htbl' Hoff' Hsv'.
    destruct (isCorrectValue_correct offset' memSize n tbl' sv Hn Htbl'
                ltac:(lia)) as (b & -> & Hb).
    destruct b; [eexists; reflexivity|].
    destruct (Z.eq_dec A sv) as [->|Hne].
    - exfalso. exact (valid_not_prime_term _ _ Hv Hb).
    - apply (IH tbl' offset' (sv + 1) A); try assumption; lia. }
  destruct (Z.geb_spec (sv - offset) memSize) as [Hfull|Hin].
  - destruct (fillArrayOfPrimes_correct (Forward.upperBoundDiff n) sv memSize)
      as (tbl' & -> & Htbl'); [rewrite upperBoundDiff_T; exact HT | exact Hmem |].
    rewrite upperBoundDiff_T in Htbl'. apply Hstep; [exact Htbl' | lia | lia].
  - apply Hstep; [exact Htbl | lia | lia].
Qed.

(** ** Array bounds of the forward strategy *)

Lemma isCorrectValue_loop_in_bounds (tbl : list bool) v k : forall i,
  0 <= i ->
  (forall j, i <= j < i + Z.of_nat k ->
     0 <= v + T j < Z.of_nat (length tbl)) ->
  exists b, Forward.isCorrectValue_loop k tbl i (v + T i - i) = Some b.
Proof.
  induction k as [|k IH]; intros i Hi Hrange; [eexists; reflexivity|].
  simpl Forward.isCorrectValue_loop.
  replace (v + T i - i + i) with (v + T i) by lia.
  assert (Hin : 0 <= v + T i < Z.of_nat (length tbl)) by (apply Hrange; lia).
  unfold load. destruct (Z.ltb_spec (v + T i) 0) as [|_]; [lia|].
  destruct (lookup_lt_is_Some_2 tbl (Z.to_nat (v + T i)) ltac:(lia)) as [c ->].
  destruct c; [eexists; reflexivity|].
  destruct (IH (i + 1)) as (b & Hrun);
    [lia | intros j Hj; apply Hrange; lia |].
  exists b. rewrite <- Hrun. f_equal. rewrite T_succ. lia.
Qed.

Lemma isCorrectValue_in_bounds (tbl : list bool) offset memSize n value :
  1 <= n -> Z.of_nat (length tbl) = memSize + n * (n + 1) / 2 ->
  offset <= value < offset + memSize ->
  exists b, Forward.isCorrectValue tbl offset value n = Some b.
Proof.
  intros Hn Hlen Hvalue. unfold Forward.isCorrectValue.
  destruct (isCorrectValue_loop_in_bounds tbl (value - offset) (Z.to_nat n) 0
              ltac:(lia)) as (b & Hrun).
  - intros j Hj. pose proof (T_nonneg j ltac:(lia)).
    assert (T j <= T (n - 1)) by (apply T_mono; lia).
    rewrite Hlen. fold (T n). rewrite (T_pred n). lia.
  - exists b. rewrite <- Hrun. f_equal. rewrite T_0. lia.
Qed.

Lemma step_ok g bestValue t :
  1 <= Threads.n g -> 1 <= Threads.numThreads g ->
  Z.of_nat (length (Threads.primeArray g)) =
    Threads.memSize g + Threads.n g * (Threads.n g + 1) / 2 ->
  thread_ok g t -> thread_ok g (fst (Threads.step g bestValue t)).
Proof.
  intros Hn Hw Hlen Hok.
  assert (Hafter : forall sv, Threads.globalOffset g <= sv ->
            thread_ok g (Threads.afterLoop g sv)).
  { intros sv Hsv. unfold Threads.afterLoop.
    destruct (sv >=? _); simpl; [exact I | exact Hsv]. }
  destruct t as [sv|sv|sv|ret|]; simpl in Hok; simpl Threads.step.
  - destruct (Z.ltb_spec sv (Threads.memSize g + Threads.globalOffset g))
      as [Hin|Hout]; [|apply Hafter; exact Hok].
    destruct (isCorrectValue_in_bounds (Threads.primeArray g)
                (Threads.globalOffset g) (Threads.memSize g) (Threads.n g) sv
                Hn Hlen ltac:(lia)) as (b & ->).
    destruct b; [apply Hafter; exact Hok|].
    destruct (bestValue =? 0); simpl; lia.
  - destruct (bestValue <? sv); [apply Hafter; exact Hok | simpl; lia].
  - destruct ((bestValue =? 0) || (sv <? bestValue)); exact I.
  - exact I.
  - exact Hok.
Qed.

Lemma step_at_ok g st i :
  1 <= Threads.n g -> 1 <= Threads.numThreads g ->
  Z.of_nat (length (Threads.primeArray g)) =
    Threads.memSize g + Threads.n g * (Threads.n g + 1) / 2 ->
  Forall (thread_ok g) (snd st) ->
  Forall (thread_ok g) (snd (Threads.step_at g st i)).
Proof.
  intros Hn Hw Hlen Hall. unfold Threads.step_at.
  destruct (snd st !! i) as [t|] eqn:Et; [|exact Hall].
  pose proof (step_ok g (fst st) t Hn Hw Hlen) as Hstep.
  destruct (Threads.step g (fst st) t) as [t' b']. simpl.
  apply Forall_insert; [exact Hall|].
  apply Hstep. eapply Forall_lookup_1; eassumption.
Qed.

Lemma run_ok g schedule : forall st,
  1 <= Threads.n g -> 1 <= Threads.numThreads g ->
  Z.of_nat (length (Threads.primeArray g)) =
    Threads.memSize g + Threads.n g * (Threads.n g + 1) / 2 ->
  Forall (thread_ok g) (snd st) ->
  Forall (thread_ok g) (snd (Threads.run g schedule st)).
Proof.
  induction schedule as [|i schedule IH]; intros st Hn Hw Hlen Hall;
    [exact Hall|].
  simpl. apply IH; try assumption. now apply step_at_ok.
Qed.

Lemma spawn_ok g : Forall (thread_ok g) (Threads.spawn g).
Proof.
  unfold Threads.spawn. apply Forall_forall. intros t Ht.
  apply list_elem_of_In, in_map_iff in Ht as (i & <- & _). simpl. lia.
Qed.

(** The loop of [main] run on one table is [scanWindow]: it stops on the
    candidate that [scanWindow] finds, and otherwise arrives at the refill
    test with [startValue] at the end of the block. *)
Lemma main_loop_window n memSize tbl offset k : forall fuel startValue,
  offset <= startValue -> startValue + Z.of_nat k = offset + memSize ->
  match Forward.scanWindow k n tbl offset startValue with
  | Some r =>
      Forward.main_loop (k + fuel) n memSize tbl offset startValue =
      if r >=? 0 then Some (offset + r)
      else Forward.main_loop fuel n memSize tbl offset (offset + memSize)
  | None =>
      Forward.main_loop (k + fuel) n memSize tbl offset startValue = None
  end.
Proof.
  induction k as [|k IH]; intros fuel sv Hsv Hk.
  - simpl. f_equal. lia.
  - simpl Forward.scanWindow. simpl Forward.main_loop.
    destruct (Z.geb_spec (sv - offset) memSize) as [|_]; [lia|].
    destruct (Forward.isCorrectValue tbl offset sv n) as [[|]|];
      [|apply IH; lia | reflexivity].
    destruct (Z.geb_spec (sv - offset) 0) as [_|]; [|lia].
    f_equal. lia.
Qed.

(** ** The verifier *)

Lemma firstPrimeToCheck_spec fuel : forall it v,
  (Z.to_nat (v - it) < fuel)%nat ->
  exists p,
    Verifier.firstPrimeToCheck fuel it v = Some (p, p + 1) /\
    Z.prime p /\ v <= p /\ it <= p.
Proof.
  induction fuel as [|f IH]; intros it v Hfuel; [lia|].
  simpl Verifier.firstPrimeToCheck.
  destruct (first_prime_from_spec it) as (Hp & Hge & _).
  destruct (Z.ltb_spec (first_prime_from it) v) as [Hlt|Hok].
  - destruct (IH (first_prime_from it + 1) v ltac:(lia))
      as (p & Hrun & Hpp & Hv & Hit).
    exists p. split; [exact Hrun|]. split; [exact Hpp|]. lia.
  - exists (first_prime_from it). split; [reflexivity|].
    split; [exact Hp|]. lia.
Qed.

(** The adding loop moves from the term of index [iter - 1] to a later
    term, and not beyond the term of index [n - 1] when it starts below it. *)
Lemma advanceSequence_spec A p n fuel : forall iter,
  1 <= iter -> (Z.to_nat (n - iter) <= fuel)%nat -> (1 <= fuel)%nat ->
  exists iter',
    Verifier.advanceSequence fuel (A + T (iter - 1)) iter p n
      = Some (A + T (iter' - 1), iter') /\
    iter < iter' /\ (iter' <= n \/ iter' = iter + 1).
Proof.
  induction fuel as [|f IH]; intros iter Hiter Hfuel Hpos; [lia|].
  simpl Verifier.advanceSequence.
  assert (Hterm : A + T (iter - 1) + iter = A + T (iter + 1 - 1)).
  { replace (iter + 1 - 1) with (iter - 1 + 1) by lia. rewrite T_succ. lia. }
  rewrite Hterm.
  destruct (Z.ltb_spec (A + T (iter + 1 - 1)) p) as [Hlt|Hge].
  - destruct (Z.geb_spec (iter + 1) n) as [Hlast|Hmore].
    + exists (iter + 1). split; [reflexivity|]. lia.
    + destruct (IH (iter + 1) ltac:(lia) ltac:(lia) ltac:(lia))
        as (iter' & Hrun & Hlt' & Hbound).
      exists iter'. split; [exact Hrun|]. lia.
  - exists (iter + 1). split; [reflexivity|]. lia.
Qed.

(** From length 2 on, a value other than 0 returned by [CheckSequence] is a
    prime term of the sequence, of index [iter - 1 <= n - 1]. *)
Lemma CheckSequence_loop_sound A n fuel : forall it iter,
  2 <= n -> 1 <= iter < n -> (Z.to_nat (n - iter) <= fuel)%nat ->
  (1 <= fuel)%nat ->
  exists r iter',
    Verifier.CheckSequence_loop fuel it (A + T (iter - 1)) iter n
      = Some (r, iter') /\
    (r = 0 \/
     (Z.prime r /\ r = A + T (iter' - 1) /\ 1 <= iter' <= n)).
Proof.
  induction fuel as [|f IH]; intros it iter Hn Hiter Hfuel Hpos; [lia|].
  cbn [Verifier.CheckSequence_loop].
  destruct (firstPrimeToCheck_spec
              (S (Z.to_nat (A + T (iter - 1) - it))) it (A + T (iter - 1))
              ltac:(lia)) as (p & -> & Hp & Hge & _).
  destruct (Z.eqb_spec p (A + T (iter - 1))) as [Heq|Hne].
  - exists (A + T (iter - 1)), iter. split; [reflexivity|]. right.
    split; [rewrite <- Heq; exact Hp|]. split; [reflexivity | lia].
  - destruct (advanceSequence_spec A p n (S (Z.to_nat n)) iter
                ltac:(lia) ltac:(lia) ltac:(lia))
      as (iter' & -> & Hlt & Hbound).
    destruct (Z.eqb_spec p (A + T (iter' - 1))) as [Heq'|Hne'].
    + exists (A + T (iter' - 1)), iter'. split; [reflexivity|]. right.
      split; [rewrite <- Heq'; exact Hp|]. split; [reflexivity | lia].
    + destruct (Z.ltb_spec iter' n) as [Hmore|Hdone].
      * apply IH; lia.
      * exists 0, iter'. split; [reflexivity | left; reflexivity].
Qed.

Lemma CheckSequence_sound A n :
  2 <= n ->
  exists r iter,
    Verifier.CheckSequence A n = Some (r, iter) /\
    (r = 0 \/ (Z.prime r /\ r = A + T (iter - 1) /\ 1 <= iter <= n)).
Proof.
  intros Hn. unfold Verifier.CheckSequence, primesieve_jump_to.
  assert (H1 : 1 <= 1 < n) by lia.
  assert (H2 : (Z.to_nat (n - 1) <= S (Z.to_nat n))%nat) by lia.
  assert (H3 : (1 <= S (Z.to_nat n))%nat) by lia.
  pose proof (CheckSequence_loop_sound A n (S (Z.to_nat n)) A 1 Hn H1 H2 H3)
    as H.
  replace (A + T (1 - 1)) with A in H
    by (change (T (1 - 1)) with 0; lia).
  exact H.
Qed.

(** From length 2 on the verifier accepts every valid start value. *)
Lemma CheckSequence_accepts_valid A n :
  2 <= n -> valid_start A n ->
  exists iter, Verifier.CheckSequence A n = Some (0, iter).
Proof.
  intros Hn Hv. destruct (CheckSequence_sound A n Hn) as (r & iter & Hrun & Hr).
  destruct Hr as [->|(Hp & -> & Hiter)]; [exists iter; exact Hrun|].
  exfalso. apply (Hv (iter - 1)); [lia | exact Hp].
Qed.

(** ** The coordinator, the candidate 0 apart *)

Lemma thread_inv_mono g b b' i t :
  thread_inv g b i t -> b' <> 0 -> (b = 0 \/ b' <= b) ->
  thread_inv g b' i t.
Proof.
  intros Hinv Hb' Hle. destruct t as [sv|sv|sv|ret|]; simpl in *.
  - exact Hinv.
  - destruct Hinv as (q & Hq & Hsv & Hcl & Hb).
    exists q. repeat (split; [assumption|]). exact Hb'.
  - destruct Hinv as (q & Hq & Hsv & Hcl & Hin & Hval).
    exists q. repeat (split; [assumption|]).
    destruct Hval as [Hv|[Hb Hlt]]; [left; exact Hv | right; lia].
  - destruct Hinv as [Hinv|(q & Hq & Hret & Hcl & Hb & Hle')];
      [left; exact Hinv | right].
    exists q. repeat (split; [assumption|]). lia.
  - exact Hinv.
Qed.

Lemma class_below_succ g i q :
  class_below g i q ->
  has_prime_term
    (Threads.globalOffset g + Z.of_nat i + Threads.numThreads g * q)
    (Threads.n g) ->
  class_below g i (q + 1).
Proof.
  intros Hcl Hq q' Hq'. destruct (Z.eq_dec q' q) as [->|Hne];
    [exact Hq | apply Hcl; lia].
Qed.

Section Coordinator.

Variable g : Threads.globals.
Hypothesis n_pos : 1 <= Threads.n g.
Hypothesis threads_pos : 1 <= Threads.numThreads g.
Hypothesis offset_nonneg : 0 <= Threads.globalOffset g.
Hypothesis table :
  prime_table (Threads.globalOffset g)
    (Threads.memSize g + T (Threads.n g)) (Threads.primeArray g).
(** The value 0, which [bestValue] uses for "none", is not a valid
    candidate of the window. *)
Hypothesis zero_not_candidate :
  0 < Threads.globalOffset g \/ has_prime_term 0 (Threads.n g).

Lemma step_inv b i t :
  thread_inv g b i t ->
  (b = 0 \/ (Threads.globalOffset g <= b
               < Threads.memSize g + Threads.globalOffset g /\
             valid_start b (Threads.n g))) ->
  let t' := fst (Threads.step g b t) in
  let b' := snd (Threads.step g b t) in
  thread_inv g b' i t' /\
  (b' = 0 \/ (Threads.globalOffset g <= b'
                < Threads.memSize g + Threads.globalOffset g /\
              valid_start b' (Threads.n g))) /\
  (b' = b \/ (b' <> 0 /\ (b = 0 \/ b' <= b))).
Proof.
  intros Hinv Hb.
  destruct t as [sv|sv|sv|ret|]; simpl in Hinv; simpl Threads.step.
  - destruct Hinv as (q & Hq & Hsv & Hcl).
    destruct (Z.ltb_spec sv (Threads.memSize g + Threads.globalOffset g))
      as [Hin|Hout].
    + destruct (isCorrectValue_correct (Threads.globalOffset g)
                  (Threads.memSize g) (Threads.n g) (Threads.primeArray g) sv
                  n_pos table ltac:(nia)) as (res & -> & Hres).
      destruct res.
      * unfold Threads.afterLoop.
        destruct (Z.geb_spec sv (Threads.memSize g + Threads.globalOffset g));
          [lia|].
        simpl. split; [|split; [exact Hb | left; reflexivity]].
        exists q. repeat (split; [assumption|]). left. exact Hres.
      * destruct (Z.eqb_spec b 0) as [Hb0|Hb0]; simpl;
          (split; [|split; [exact Hb | left; reflexivity]]).
        -- exists (q + 1). split; [lia|]. split; [lia|].
           apply class_below_succ; [exact Hcl | rewrite <- Hsv; exact Hres].
        -- exists q. repeat (split; [assumption|]). split; [|exact Hb0].
           apply class_below_succ; [exact Hcl | rewrite <- Hsv; exact Hres].
    + unfold Threads.afterLoop.
      destruct (Z.geb_spec sv (Threads.memSize g + Threads.globalOffset g));
        [|lia].
      simpl. split; [|split; [exact Hb | left; reflexivity]].
      left. split; [reflexivity|]. intros q' Hq' Hlt. apply Hcl. nia.
  - destruct Hinv as (q & Hq & Hsv & Hcl & Hb0).
    destruct (Z.ltb_spec b sv) as [Hlt|Hge].
    + unfold Threads.afterLoop.
      destruct (Z.geb_spec sv (Threads.memSize g + Threads.globalOffset g))
        as [Hout|Hin]; simpl;
        (split; [|split; [exact Hb | left; reflexivity]]).
      * left. split; [reflexivity|]. intros q' Hq' Hlt'. apply Hcl. nia.
      * exists q. repeat (split; [assumption|]).
        split; [intros q' Hq'; apply Hcl; lia|].
        split; [exact Hin|]. right. split; assumption.
    + simpl. split; [|split; [exact Hb | left; reflexivity]].
      exists (q + 1). split; [lia|]. split; [lia | exact Hcl].
  - destruct Hinv as (q & Hq & Hsv & Hcl & Hin & Hval).
    destruct ((b =? 0) || (sv <? b)) eqn:E; simpl.
    + assert (Hv : valid_start sv (Threads.n g)).
      { destruct Hval as [Hv|[Hb0 Hlt]]; [exact Hv|].
        apply orb_true_iff in E as [E|E];
          [apply Z.eqb_eq in E | apply Z.ltb_lt in E]; lia. }
      assert (Hsvge : Threads.globalOffset g <= sv) by nia.
      assert (Hsv0 : sv <> 0).
      { destruct zero_not_candidate as [Hpos|Hzero]; [lia|].
        intros ->. exact (valid_not_prime_term _ _ Hv Hzero). }
      split; [|split].
      * right. exists q. repeat (split; [assumption|]). lia.
      * right. split; [lia | exact Hv].
      * right. split; [exact Hsv0|].
        apply orb_true_iff in E as [E|E];
          [apply Z.eqb_eq in E | apply Z.ltb_lt in E]; lia.
    + apply orb_false_iff in E as [E1 E2].
      apply Z.eqb_neq in E1. apply Z.ltb_ge in E2.
      split; [|split; [exact Hb | left; reflexivity]].
      right. exists q. repeat (split; [assumption|]). exact E2.
  - simpl. split; [exact Hinv | split; [exact Hb | left; reflexivity]].
  - destruct Hinv.
Qed.

Lemma step_at_inv st i : coord_inv g st -> coord_inv g (Threads.step_at g st i).
Proof.
  intros (Hlen & Hb & Hts). unfold Threads.step_at.
  destruct (snd st !! i) as [t|] eqn:Et; [|split; [exact Hlen | split; assumption]].
  pose proof (step_inv (fst st) i t (Hts i t Et) Hb) as Hstep.
  destruct (Threads.step g (fst st) t) as [t' b']. simpl in Hstep.
  destruct Hstep as (Ht' & Hb' & Hchange).
  split; [simpl; rewrite length_insert; exact Hlen|].
  split; [exact Hb'|].
  simpl. intros j tj Hj.
  destruct (Nat.eq_dec i j) as [<-|Hne].
  - rewrite list_lookup_insert_eq in Hj by (eapply lookup_lt_Some; eassumption).
    injection Hj as <-. exact Ht'.
  - rewrite list_lookup_insert_ne in Hj by exact Hne.
    destruct Hchange as [->|[Hb0 Hle]]; [apply Hts; exact Hj|].
    apply (thread_inv_mono g (fst st)); [apply Hts; exact Hj | exact Hb0 | exact Hle].
Qed.

Lemma run_inv schedule : forall st,
  coord_inv g st -> coord_inv g (Threads.run g schedule st).
Proof.
  induction schedule as [|i schedule IH]; intros st Hinv; [exact Hinv|].
  simpl. apply IH, step_at_inv, Hinv.
Qed.

Lemma spawn_inv : coord_inv g (0, Threads.spawn g).
Proof.
  unfold coord_inv, Threads.spawn. simpl.
  split; [rewrite length_map, length_seq; lia|]. split; [left; reflexivity|].
  intros i t Ht. apply list_lookup_fmap_Some in Ht as (k & -> & Hk).
  apply lookup_seq in Hk as [-> _]. simpl.
  exists 0. split; [lia|]. split; [lia|]. intros q Hq. lia.
Qed.

(** Once every thread has exited, [bestValue] is the least valid candidate
    of the window, or 0 when the window has none. *)
Lemma joined_answer st :
  coord_inv g st -> forallb Threads.exited (snd st) = true ->
  1 <= Threads.memSize g ->
  window_answer (Threads.globalOffset g) (Threads.n g) (Threads.memSize g)
    (if fst st =? 0 then -1 else fst st - Threads.globalOffset g).
Proof.
  intros (Hlen & Hb & Hts) Hall Hmem.
  set (off := Threads.globalOffset g) in *.
  set (W := Threads.numThreads g) in *.
  assert (Hcand : forall c, off <= c < off + Threads.memSize g ->
            has_prime_term c (Threads.n g) \/ (fst st <> 0 /\ fst st <= c)).
  { intros c Hc.
    pose proof (Z.div_mod (c - off) W ltac:(lia)) as Hdm.
    pose proof (Z.mod_pos_bound (c - off) W ltac:(lia)) as Hmod.
    assert (Hdiv : 0 <= (c - off) / W) by (apply Z.div_pos; lia).
    set (i := Z.to_nat ((c - off) mod W)).
    destruct (lookup_lt_is_Some_2 (snd st) i ltac:(lia)) as [t Ht].
    pose proof (Hts i t Ht) as Hinv.
    assert (Hex : Threads.exited t = true).
    { rewrite forallb_forall in Hall. apply Hall.
      apply list_elem_of_In. eapply list_elem_of_lookup_2. exact Ht. }
    destruct t as [sv|sv|sv|ret|]; try discriminate. simpl in Hinv.
    assert (Hc' : c = off + Z.of_nat i + W * ((c - off) / W))
      by (unfold i; lia).
    destruct Hinv as [(_ & Hnone)|(q & Hq & Hret & Hcl & Hb0 & Hle)].
    - left. rewrite Hc'. apply Hnone; [exact Hdiv | fold off W; lia].
    - destruct (Z_lt_dec ((c - off) / W) q) as [Hlt|Hge].
      + left. rewrite Hc'. apply Hcl. lia.
      + right. split; [exact Hb0|]. fold off W in Hret. nia. }
  destruct (Z.eqb_spec (fst st) 0) as [Hz|Hnz].
  - right. split; [reflexivity|]. intros k Hk.
    destruct (Hcand (off + k) ltac:(lia)) as [Hp|[Hb0 _]]; [exact Hp | lia].
  - destruct Hb as [Hb|[Hbr Hbv]]; [lia|]. left. fold off in Hbr.
    split; [lia|].
    split; [replace (off + (fst st - off)) with (fst st) by lia; exact Hbv|].
    intros k Hk.
    destruct (Hcand (off + k) ltac:(lia)) as [Hp|[_ Hle]]; [exact Hp | lia].
Qed.

End Coordinator.

(** On a window in which 0 is not a valid candidate, every schedule that
    lets all threads exit leaves in [bestValue] the least valid candidate of
    the window, or 0 when there is none, for any number of threads. *)
Lemma window_correct_without_zero n memSize numThreads globalOffset
    schedule bestValue :
  1 <= n -> 1 <= memSize -> 1 <= numThreads -> 0 <= globalOffset ->
  0 < globalOffset \/ has_prime_term 0 n ->
  Threads.window n memSize numThreads globalOffset 0 schedule
    = Some bestValue ->
  window_answer globalOffset n memSize
    (if bestValue =? 0 then -1 else bestValue - globalOffset).
Proof.
  intros Hn Hmem Hw Hoff Hzero. unfold Threads.window.
  pose proof (T_nonneg n ltac:(lia)) as HT.
  destruct (fillArrayOfPrimes_correct (Forward.upperBoundDiff n) globalOffset
              memSize) as (tbl & -> & Htbl);
    [rewrite upperBoundDiff_T; exact HT | exact Hmem |].
  rewrite upperBoundDiff_T in Htbl.
  set (g := Threads.Globals n memSize globalOffset numThreads tbl).
  destruct (forallb Threads.exited
              (snd (Threads.run g schedule (0, Threads.spawn g)))) eqn:Hall;
    [|discriminate].
  intros [= <-].
  apply (joined_answer g); try assumption.
  apply run_inv; try assumption. apply spawn_inv. exact Hw.
Qed.

(** From length 3 on the candidate 0 is ruled out by its term [T 2 = 3], so
    the coordinator is right on every window. *)
Lemma zero_ruled_out_from_three n : 3 <= n -> has_prime_term 0 n.
Proof.
  intros Hn. exists 2. split; [lia|]. apply is_prime_spec. reflexivity.
Qed.

Lemma window_correct_from_three n memSize numThreads globalOffset
    schedule bestValue :
  3 <= n -> 1 <= memSize -> 1 <= numThreads -> 0 <= globalOffset ->
  Threads.window n memSize numThreads globalOffset 0 schedule
    = Some bestValue ->
  window_answer globalOffset n memSize
    (if bestValue =? 0 then -1 else bestValue - globalOffset).
Proof.
  intros Hn Hmem Hw Hoff.
  apply window_correct_without_zero; try assumption; try lia.
  right. apply zero_ruled_out_from_three. exact Hn.
Qed.

(** For instance three threads on the first window for [n = 5], run in the
    order 2, 1, 0: thread 0 finds 15, the least valid start value. *)
Example window_three_threads :
  Threads.window 5 32 3 0 0
    (Threads.one_by_one 40 [2%nat; 1%nat; 0%nat]) = Some 15.
Proof. vm_compute. reflexivity. Qed.

(** ** Deciding the predicates on start values *)

Lemma has_prime_termb_spec A n :
  has_prime_termb A n = true <-> has_prime_term A n.
Proof.
  unfold has_prime_termb, has_prime_term. rewrite existsb_exists. split.
  - intros (i & Hin & Hp). apply in_seq in Hin.
    exists (Z.of_nat i). split; [lia | now apply is_prime_spec].
  - intros (i & Hi & Hp). exists (Z.to_nat i). split.
    + apply in_seq. lia.
    + rewrite Z2Nat.id by lia. now apply is_prime_spec.
Qed.

Lemma valid_startb_spec A n : valid_startb A n = true <-> valid_start A n.
Proof.
  unfold valid_startb. rewrite negb_true_iff. split.
  - intros Hb i Hi Hp.
    assert (has_prime_termb A n = true)
      by (apply has_prime_termb_spec; exists i; split; assumption).
    congruence.
  - intros Hv. destruct (has_prime_termb A n) eqn:E; [exfalso | reflexivity].
    apply has_prime_termb_spec in E. exact (valid_not_prime_term _ _ Hv E).
Qed.

(** ** Program 2 as a whole *)

Lemma main_sound n memSize fuel v :
  1 <= n -> 1 <= memSize ->
  Forward.main fuel n memSize = Some v -> least_valid_from 0 n v.
Proof.
  intros Hn Hmem. unfold Forward.main.
  pose proof (T_nonneg n ltac:(lia)) as HT.
  destruct (fillArrayOfPrimes_correct (Forward.upperBoundDiff n) 0 memSize)
    as (tbl & -> & Htbl); [rewrite upperBoundDiff_T; exact HT | exact Hmem |].
  rewrite upperBoundDiff_T in Htbl. intros Hrun.
  apply (main_loop_sound n memSize fuel tbl 0 0 v); try assumption; try lia.
Qed.

Lemma main_returns n memSize :
  1 <= n -> 1 <= memSize -> exists fuel v, Forward.main fuel n memSize = Some v.
Proof.
  intros Hn Hmem. unfold Forward.main.
  pose proof (T_nonneg n ltac:(lia)) as HT.
  destruct (fillArrayOfPrimes_correct (Forward.upperBoundDiff n) 0 memSize)
    as (tbl & -> & Htbl); [rewrite upperBoundDiff_T; exact HT | exact Hmem |].
  rewrite upperBoundDiff_T in Htbl.
  destruct (valid_start_exists n 0 ltac:(lia) Hn) as (A & HA & Hv).
  exists (S (Z.to_nat (A - 0))).
  apply (main_loop_returns n memSize _ tbl 0 0 A); try assumption; try lia.
Qed.

(** * The properties of the specification *)

(** C1.  For a window offset [>= 0], a size [>= 1] and a length [n >= 1],
    [processArray] called with [startValueIndex = 0] on a freshly
    initialised array returns: the smallest index [r] of [[0, size)] such
    that none of the [n] terms [offset + r + T i] is prime (every smaller
    index has a prime term), or [-1]; and it returns [-1] exactly when every
    index of the window has a prime term.  The early exit of the prime loop
    therefore never hands out an index that a later prime would cross out. *)
Theorem processArray_smallest_valid_index offset size n :
  0 <= offset -> 1 <= size -> 1 <= n ->
  exists r,
    Backward.processArray (Backward.initArray size) offset 0 n size = Some r /\
    ((0 <= r < size /\ valid_start (offset + r) n /\
      forall k, 0 <= k < r -> has_prime_term (offset + k) n)
     \/ (r = -1 /\
         forall k, 0 <= k < size -> has_prime_term (offset + k) n)) /\
    (r = -1 <-> forall k, 0 <= k < size -> has_prime_term (offset + k) n).
Proof.
  intros Hoff Hsize Hn.
  destruct (processArray_correct offset n size Hoff Hn Hsize) as (r & Hrun & Hr).
  exists r. split; [exact Hrun|]. split; [exact Hr|].
  apply window_answer_exhausted. exact Hr.
Qed.

Lemma processArray_smallest_valid_index_witness :
  exists r,
    Backward.processArray (Backward.initArray 10) 3 0 3 10 = Some r /\
    ((0 <= r < 10 /\ valid_start (3 + r) 3 /\
      forall k, 0 <= k < r -> has_prime_term (3 + k) 3)
     \/ (r = -1 /\ forall k, 0 <= k < 10 -> has_prime_term (3 + k) 3)) /\
    (r = -1 <-> forall k, 0 <= k < 10 -> has_prime_term (3 + k) 3).
Proof.
  apply (processArray_smallest_valid_index 3 10 3); lia.
Defined.



(** C3.  The coordinator does not always return the smallest valid candidate
    of the window, and its answer depends on the number of threads and on
    the schedule.  [bestValue = 0] stands for "nothing found", so the valid
    candidate 0 (for [n = 2]: 0 and 1 are not prime) is never recorded.  On
    the window [[0, 16)] with [n = 2]: one thread leaves [bestValue] at 0 and
    [main] goes on to the next block (it ends on 20); two threads end on 9
    when thread 0 takes the lock first, and on 0 (block taken as exhausted)
    when thread 1 takes it first; eight threads run in turn end on 9.  On
    the windows that do not hold 0 as a valid candidate the coordinator is
    right under every schedule ([window_correct_without_zero]). *)
Theorem coordinator_drops_candidate_zero :
  valid_start 0 2 /\
  Threads.window 2 16 1 0 0 (Threads.one_by_one 40 [0%nat]) = Some 0 /\
  Threads.main_loop
    [Threads.one_by_one 40 [0%nat]; Threads.one_by_one 40 [0%nat]]
    2 16 1 0 0 = Some 20 /\
  Threads.window 2 16 2 0 0 (Threads.one_by_one 40 [0%nat; 1%nat]) = Some 9 /\
  Threads.window 2 16 2 0 0 (Threads.one_by_one 40 [1%nat; 0%nat]) = Some 0 /\
  Threads.window 2 16 8 0 0 (Threads.one_by_one 40 (seq 0 8)) = Some 9.
Proof.
  split; [apply valid_startb_spec; reflexivity|].
  repeat split; vm_compute; reflexivity.
Qed.

(** C4.  [CheckSequence] is not the test that the claim describes.
    [CheckSequence(25, 4)] returns 0 although the last term
    [25 + 1 + 2 + 3 = 31] is prime: the prime 29 lies between the last two
    terms, so the loop ends without comparing 31 with a prime.
    [CheckSequence(1, 1)] returns 2, a prime "term" of index 1, although the
    sequence of length 1 started at 1 has the single term 1. *)
Theorem CheckSequence_wrong_verdicts :
  Verifier.CheckSequence 25 4 = Some (0, 4) /\
  Z.prime (25 + T 3) /\
  Verifier.CheckSequence 1 1 = Some (2, 2) /\
  valid_start 1 1.
Proof.
  split; [vm_compute; reflexivity|].
  split; [apply is_prime_spec; vm_compute; reflexivity|].
  split; [vm_compute; reflexivity|].
  apply valid_startb_spec. vm_compute. reflexivity.
Qed.

(** C5.  The verifier does not confirm every answer of the engine: for
    [n = 1] and the search started at 1, [look4StartValue] returns 1 (which
    is valid: 1 is not prime) and [CheckSequence(1, 1)] returns 2 instead
    of 0.  From length 2 on it does accept every valid start value
    ([CheckSequence_accepts_valid]). *)
Theorem verifier_rejects_engine_answer :
  Backward.look4StartValue 1 1 1 10 = Some 1 /\
  valid_start 1 1 /\
  Verifier.CheckSequence 1 1 = Some (2, 2).
Proof.
  split; [vm_compute; reflexivity|].
  split; [apply valid_startb_spec; vm_compute; reflexivity|].
  vm_compute. reflexivity.
Qed.

(** C6.  For every [n >= 1], start value and block size [>= 1]: whenever the
    search loop returns, the value returned is the least valid start value
    from the start value on ([look4StartValue], program 1) or from 0 on (the
    loop of [main], program 2); both loops do return; and the value does not
    depend on the block size. *)
Theorem segment_manager_least_valid n start size :
  1 <= n -> 0 <= start -> 1 <= size ->
  (forall fuel v,
     Backward.look4StartValue fuel start n size = Some v ->
     least_valid_from start n v) /\
  (exists fuel v, Backward.look4StartValue fuel start n size = Some v) /\
  (forall fuel v,
     Forward.main fuel n size = Some v -> least_valid_from 0 n v) /\
  (exists fuel v, Forward.main fuel n size = Some v) /\
  (forall size' fuel fuel' v v',
     1 <= size' ->
     Backward.look4StartValue fuel start n size = Some v ->
     Backward.look4StartValue fuel' start n size' = Some v' -> v = v') /\
  (forall size' fuel fuel' v v',
     1 <= size' ->
     Forward.main fuel n size = Some v ->
     Forward.main fuel' n size' = Some v' -> v = v').
Proof.
  intros Hn Hstart Hsize.
  split; [intros fuel v; now apply look4StartValue_sound|].
  split.
  { destruct (valid_start_exists n start Hstart Hn) as (A & HA & Hv).
    exists (S (Z.to_nat (A - start))).
    apply (look4StartValue_returns n size _ start A); try assumption; lia. }
  split; [intros fuel v; now apply main_sound|].
  split; [now apply main_returns|].
  split.
  - intros size' fuel fuel' v v' Hsize' Hrun Hrun'.
    apply (least_valid_unique start n).
    + now apply (look4StartValue_sound n size fuel).
    + now apply (look4StartValue_sound n size' fuel').
  - intros size' fuel fuel' v v' Hsize' Hrun Hrun'.
    apply (least_valid_unique 0 n).
    + now apply (main_sound n size fuel).
    + now apply (main_sound n size' fuel').
Qed.

Lemma segment_manager_least_valid_witness :
  (forall fuel v,
     Backward.look4StartValue fuel 1 2 3 = Some v -> least_valid_from 1 2 v) /\
  (exists fuel v, Backward.look4StartValue fuel 1 2 3 = Some v) /\
  (forall fuel v, Forward.main fuel 2 3 = Some v -> least_valid_from 0 2 v) /\
  (exists fuel v, Forward.main fuel 2 3 = Some v) /\
  (forall size' fuel fuel' v v',
     1 <= size' ->
     Backward.look4StartValue fuel 1 2 3 = Some v ->
     Backward.look4StartValue fuel' 1 2 size' = Some v' -> v = v') /\
  (forall size' fuel fuel' v v',
     1 <= size' ->
     Forward.main fuel 2 3 = Some v ->
     Forward.main fuel' 2 size' = Some v' -> v = v').
Proof.
  apply (segment_manager_least_valid 2 1 3); lia.
Defined.

(** C7, as the code has it.  The pass of [processArray] for one prime [p]
    clears exactly the cells of the window whose candidate value is
    [p - T i] for a term index [i] from 0 up to [n - 1], the last term
    included; every other cell is left as it was. *)
Theorem ruleOut_clears_all_terms offset n size p (arr : list bool) c :
  1 <= n -> Z.of_nat (length arr) = size -> 0 <= c < size ->
  (alive (Backward.ruleOut (Z.to_nat (n - 1 + 1)) 0 size (p - offset) arr) c
     = false <->
   alive arr c = false \/ exists i, 0 <= i <= n - 1 /\ offset + c = p - T i).
Proof.
  intros Hn Hlen Hc.
  pose proof (ruleOut_alive (Z.to_nat (n - 1 + 1)) 0 size (p - offset) arr c
                ltac:(lia) Hc Hlen) as Hr.
  rewrite T_0 in Hr.
  replace (p - offset - 0 + 0) with (p - offset) in Hr by lia.
  rewrite Hr. split; (intros [H|(i & Hi & Hci)]; [left; exact H | right]);
    exists i; (split; [lia | lia]).
Qed.

Lemma ruleOut_clears_all_terms_witness :
  alive (Backward.ruleOut (Z.to_nat (2 - 1 + 1)) 0 10 (3 - 0)
           (Backward.initArray 10)) 2 = false <->
  alive (Backward.initArray 10) 2 = false \/
  exists i, 0 <= i <= 2 - 1 /\ 0 + 2 = 3 - T i.
Proof.
  apply (ruleOut_clears_all_terms 0 2 10 3 (Backward.initArray 10) 2);
    [lia | reflexivity | lia].
Defined.

(** C7 as stated fails: for [n = 2], offset 0 and the prime 3, the pass
    clears cell 2, which is [3 - T 1], the candidate of the last term index
    [n - 1 = 1]; it is not [3 - T i] for an index [i <= n - 2 = 0]. *)
Lemma ruleOut_last_term_counterexample :
  ~ (alive (Backward.ruleOut (Z.to_nat (2 - 1 + 1)) 0 10 (3 - 0)
              (Backward.initArray 10)) 2 = false <->
     alive (Backward.initArray 10) 2 = false \/
     exists i, 0 <= i <= 2 - 2 /\ 0 + 2 = 3 - T i).
Proof.
  intros [H _]. destruct (H eq_refl) as [Halive|(i & Hi & Heq)].
  - vm_compute in Halive. discriminate.
  - assert (i = 0) by lia. subst i. vm_compute in Heq. discriminate.
Qed.

(** C8.  The table is longer than the window extended by [T (n - 1)].  For
    [n = 2] and the window of 3 values at offset 0, [main] sets
    [upperBoundDiff] to [2 * 3 / 2 = 3] and [fillArrayOfPrimes] builds
    [3 + 3 = 6] cells, where the bound [T (n - 1) = 1] (the one of the
    comment on [upperBoundDiff] and of program 1) gives [3 + 1 = 4] cells.
    The cells themselves are right: cell [j] holds 1 exactly when [j] is
    prime (2, 3 and 5 here). *)
Theorem table_length_exceeds_bound :
  Forward.upperBoundDiff 2 = 3 /\
  T (2 - 1) = 1 /\
  Forward.fillArrayOfPrimes (Forward.upperBoundDiff 2) 0 3
    = Some [false; false; true; true; false; true] /\
  Z.of_nat (length [false; false; true; true; false; true]) = 3 + 3 /\
  3 + 3 <> 3 + T (2 - 1).
Proof.
  split; [reflexivity|]. split; [reflexivity|].
  split; [vm_compute; reflexivity|].
  split; [reflexivity | vm_compute; discriminate].
Qed.

(** C9, as the code has it.  For [n = 2] and the search started at 0, both
    strategies return [A = 0]: neither 0 nor 1 is prime.  Every [A] from 1
    to 7 is ruled out because [A] or [A + 1] is prime, and 8 is the least
    valid start value from 1 on, which [look4StartValue] started at 1
    returns, with one block and with blocks of 3 values alike. *)
Theorem length_two_reference_values :
  Backward.look4StartValue 1 0 2 16 = Some 0 /\
  Forward.main 1 2 16 = Some 0 /\
  valid_start 0 2 /\
  Forall (fun A => has_prime_term A 2) [1; 2; 3; 4; 5; 6; 7] /\
  least_valid_from 1 2 8 /\
  Backward.look4StartValue 1 1 2 16 = Some 8 /\
  Backward.look4StartValue 3 1 2 3 = Some 8.
Proof.
  split; [vm_compute; reflexivity|].
  split; [vm_compute; reflexivity|].
  split; [apply valid_startb_spec; vm_compute; reflexivity|].
  split.
  { repeat (apply Forall_cons; split;
            [apply has_prime_termb_spec; vm_compute; reflexivity|]).
    apply Forall_nil. exact I. }
  split.
  { apply (look4StartValue_sound 2 16 1 1 8); [lia | lia | lia |].
    vm_compute. reflexivity. }
  split; vm_compute; reflexivity.
Qed.

(** C9 as stated fails: started at 0 with [n = 2], the engine returns 0,
    not 8, and 0 is not ruled out since neither 0 nor 1 is prime. *)
Lemma start_zero_counterexample :
  Backward.processArray (Backward.initArray 16) 0 0 2 16 = Some 0 /\
  Backward.look4StartValue 1 0 2 16 = Some 0 /\
  Forward.forwardWindow 0 2 16 = Some 0 /\
  ~ has_prime_term 0 2.
Proof.
  split; [vm_compute; reflexivity|].
  split; [vm_compute; reflexivity|].
  split; [vm_compute; reflexivity|].
  intros H. apply has_prime_termb_spec in H. vm_compute in H. discriminate.
Qed.

(** C10.  In the forward strategy no access leaves the table of
    [memSize + n (n + 1) / 2] cells: [fillArrayOfPrimes] completes with a
    table of that length; for a candidate [value] of the window every index
    [(value - offset) + T i], [0 <= i <= n - 1], read by [isCorrectValue] is
    inside it, so the guarded read never fails; and under every schedule no
    thread of the multi-threaded program reaches the fault state, the loop
    test of [mainLoop] keeping the candidates inside the window. *)
Theorem forward_accesses_in_bounds n offset memSize :
  1 <= n -> 0 <= offset -> 1 <= memSize ->
  (exists tbl,
     Forward.fillArrayOfPrimes (Forward.upperBoundDiff n) offset memSize
       = Some tbl /\
     Z.of_nat (length tbl) = memSize + n * (n + 1) / 2) /\
  (forall (tbl : list bool) value,
     Z.of_nat (length tbl) = memSize + n * (n + 1) / 2 ->
     offset <= value < offset + memSize ->
     (forall i, 0 <= i <= n - 1 ->
        0 <= (value - offset) + T i < memSize + n * (n + 1) / 2) /\
     exists b, Forward.isCorrectValue tbl offset value n = Some b) /\
  (forall (tbl : list bool) numThreads bestValue schedule,
     Z.of_nat (length tbl) = memSize + n * (n + 1) / 2 ->
     1 <= numThreads ->
     Forall (fun t => t <> Threads.Fault)
       (snd (Threads.run (Threads.Globals n memSize offset numThreads tbl)
               schedule
               (bestValue,
                Threads.spawn
                  (Threads.Globals n memSize offset numThreads tbl))))).
Proof.
  intros Hn Hoff Hmem. split; [|split].
  - pose proof (T_nonneg n ltac:(lia)) as HT.
    destruct (fillArrayOfPrimes_correct (Forward.upperBoundDiff n) offset
                memSize) as (tbl & Hrun & Hlen & _);
      [rewrite upperBoundDiff_T; exact HT | exact Hmem |].
    exists tbl. split; assumption.
  - intros tbl value Hlen Hvalue. split.
    + intros i Hi. pose proof (T_nonneg i ltac:(lia)).
      assert (T i <= T (n - 1)) by (apply T_mono; lia).
      fold (T n). rewrite (T_pred n). lia.
    + now apply (isCorrectValue_in_bounds tbl offset memSize n value).
  - intros tbl numThreads bestValue schedule Hlen Hw.
    set (g := Threads.Globals n memSize offset numThreads tbl).
    eapply Forall_impl.
    + apply (run_ok g schedule (bestValue, Threads.spawn g)); try assumption.
      apply spawn_ok.
    + intros t Hok ->. exact Hok.
Qed.

Lemma forward_accesses_in_bounds_witness :
  (exists tbl,
     Forward.fillArrayOfPrimes (Forward.upperBoundDiff 3) 5 4 = Some tbl /\
     Z.of_nat (length tbl) = 4 + 3 * (3 + 1) / 2) /\
  (forall (tbl : list bool) value,
     Z.of_nat (length tbl) = 4 + 3 * (3 + 1) / 2 ->
     5 <= value < 5 + 4 ->
     (forall i, 0 <= i <= 3 - 1 ->
        0 <= (value - 5) + T i < 4 + 3 * (3 + 1) / 2) /\
     exists b, Forward.isCorrectValue tbl 5 value 3 = Some b) /\
  (forall (tbl : list bool) numThreads bestValue schedule,
     Z.of_nat (length tbl) = 4 + 3 * (3 + 1) / 2 ->
     1 <= numThreads ->
     Forall (fun t => t <> Threads.Fault)
       (snd (Threads.run (Threads.Globals 3 4 5 numThreads tbl)
               schedule
               (bestValue,
                Threads.spawn (Threads.Globals 3 4 5 numThreads tbl))))).
Proof.
  apply (forward_accesses_in_bounds 3 5 4); lia.
Defined.

(** * Further properties of the programs *)

(** ** The verifier, in full *)

Lemma firstPrimeToCheck_least fuel : forall it v,
  it <= v -> (Z.to_nat (v - it) < fuel)%nat ->
  exists p,
    Verifier.firstPrimeToCheck fuel it v = Some (p, p + 1) /\
    Z.prime p /\ v <= p /\ (forall q, v <= q < p -> ~ Z.prime q).
Proof.
  induction fuel as [|f IH]; intros it v Hit Hfuel; [lia|].
  simpl Verifier.firstPrimeToCheck.
  destruct (first_prime_from_spec it) as (Hp & Hge & Hleast).
  destruct (Z.ltb_spec (first_prime_from it) v) as [Hlt|Hok].
  - apply IH; lia.
  - exists (first_prime_from it). split; [reflexivity|].
    split; [exact Hp|]. split; [lia|]. intros q Hq. apply Hleast. lia.
Qed.

Lemma advanceSequence_terms A p n fuel : forall iter,
  1 <= iter -> (Z.to_nat (n - iter) <= fuel)%nat -> (1 <= fuel)%nat ->
  exists iter',
    Verifier.advanceSequence fuel (A + T (iter - 1)) iter p n
      = Some (A + T (iter' - 1), iter') /\
    iter < iter' /\ (iter' <= n \/ iter' = iter + 1) /\
    (forall j, iter <= j < iter' - 1 -> A + T j < p) /\
    (A + T (iter' - 1) < p -> n <= iter').
Proof.
  induction fuel as [|f IH]; intros iter Hiter Hfuel Hpos; [lia|].
  simpl Verifier.advanceSequence.
  assert (Hterm : A + T (iter - 1) + iter = A + T (iter + 1 - 1)).
  { replace (iter + 1 - 1) with (iter - 1 + 1) by lia. rewrite T_succ. lia. }
  rewrite Hterm.
  destruct (Z.ltb_spec (A + T (iter + 1 - 1)) p) as [Hlt|Hge].
  - destruct (Z.geb_spec (iter + 1) n) as [Hlast|Hmore].
    + exists (iter + 1). split; [reflexivity|]. split; [lia|].
      split; [lia|]. split; [intros j Hj; lia | intros _; lia].
    + destruct (IH (iter + 1) ltac:(lia) ltac:(lia) ltac:(lia))
        as (iter' & Hrun & Hlt' & Hbound & Hbelow & Hstop).
      exists iter'. split; [exact Hrun|]. split; [lia|]. split; [lia|].
      split; [|exact Hstop].
      intros j Hj. destruct (Z.eq_dec j iter) as [->|Hne].
      * replace iter with (iter + 1 - 1) at 1 by lia. exact Hlt.
      * apply Hbelow. lia.
  - exists (iter + 1). split; [reflexivity|]. split; [lia|].
    split; [lia|]. split; [intros j Hj; lia | intros Hc; lia].
Qed.

(** What the [do ... while] loop of [CheckSequence] returns from length 2
    on, the terms below the current one being known not to be prime. *)
Lemma CheckSequence_loop_char A n fuel : forall it iter,
  2 <= n -> 1 <= iter < n -> it <= A + T (iter - 1) ->
  (Z.to_nat (n - iter) <= fuel)%nat -> (1 <= fuel)%nat ->
  (forall j, 0 <= j < iter - 1 -> ~ Z.prime (A + T j)) ->
  exists r iter',
    Verifier.CheckSequence_loop fuel it (A + T (iter - 1)) iter n
      = Some (r, iter') /\
    ((r = 0 /\ iter' = n /\
      (forall j, 0 <= j < n - 1 -> ~ Z.prime (A + T j)) /\
      (Z.prime (A + T (n - 1)) ->
       exists q, Z.prime q /\ A + T (n - 2) < q < A + T (n - 1)))
     \/ (r = A + T (iter' - 1) /\ Z.prime r /\ 1 <= iter' <= n /\
         forall j, 0 <= j < iter' - 1 -> ~ Z.prime (A + T j))).
Proof.
  induction fuel as [|f IH];
    intros it iter Hn Hiter Hit Hfuel Hpos Hbefore; [lia|].
  cbn [Verifier.CheckSequence_loop].
  destruct (firstPrimeToCheck_least
              (S (Z.to_nat (A + T (iter - 1) - it))) it (A + T (iter - 1))
              Hit ltac:(lia)) as (p & -> & Hp & Hge & Hleast).
  destruct (Z.eqb_spec p (A + T (iter - 1))) as [Heq|Hne].
  - exists (A + T (iter - 1)), iter. split; [reflexivity|]. right.
    split; [reflexivity|]. split; [rewrite <- Heq; exact Hp|].
    split; [lia | exact Hbefore].
  - destruct (advanceSequence_terms A p n (S (Z.to_nat n)) iter
                ltac:(lia) ltac:(lia) ltac:(lia))
      as (iter' & -> & Hlt & Hbound & Hbelow & Hstop).
    (* the terms passed on the way are below [p], hence not prime *)
    assert (Hbefore' : forall j, 0 <= j < iter' - 1 -> ~ Z.prime (A + T j)).
    { intros j Hj. destruct (Z_lt_dec j (iter - 1)) as [Hold|Hnew].
      - apply Hbefore. lia.
      - apply Hleast. split.
        + assert (T (iter - 1) <= T j) by (apply T_mono; lia). lia.
        + destruct (Z.eq_dec j (iter - 1)) as [->|Hne2]; [lia|].
          apply Hbelow. lia. }
    destruct (Z.eqb_spec p (A + T (iter' - 1))) as [Heq'|Hne'].
    + exists (A + T (iter' - 1)), iter'. split; [reflexivity|]. right.
      split; [reflexivity|]. split; [rewrite <- Heq'; exact Hp|].
      split; [lia | exact Hbefore'].
    + destruct (Z.ltb_spec iter' n) as [Hmore|Hdone].
      * apply IH; try assumption; try lia.
      * exists 0, iter'. split; [reflexivity|]. left.
        assert (Hn' : iter' = n) by lia. subst iter'.
        split; [reflexivity|]. split; [reflexivity|].
        split; [exact Hbefore'|]. intros Hlast.
        destruct (Z_lt_dec (A + T (n - 1)) p) as [Hsmall|Hbig].
        -- exfalso. apply (Hleast (A + T (n - 1))); [|exact Hlast].
           assert (T (iter - 1) <= T (n - 1)) by (apply T_mono; lia). lia.
        -- exists p. split; [exact Hp|]. split; [|lia].
           destruct (Z.eq_dec (n - 2) (iter - 1)) as [Hsame|Hdiff].
           ++ rewrite Hsame. lia.
           ++ apply Hbelow. lia.
Qed.

Lemma CheckSequence_char A n :
  2 <= n ->
  exists r iter,
    Verifier.CheckSequence A n = Some (r, iter) /\
    ((r = 0 /\ iter = n /\
      (forall j, 0 <= j < n - 1 -> ~ Z.prime (A + T j)) /\
      (Z.prime (A + T (n - 1)) ->
       exists q, Z.prime q /\ A + T (n - 2) < q < A + T (n - 1)))
     \/ (r = A + T (iter - 1) /\ Z.prime r /\ 1 <= iter <= n /\
         forall j, 0 <= j < iter - 1 -> ~ Z.prime (A + T j))).
Proof.
  intros Hn. unfold Verifier.CheckSequence, primesieve_jump_to.
  assert (H1 : 1 <= 1 < n) by lia.
  assert (H2 : (Z.to_nat (n - 1) <= S (Z.to_nat n))%nat) by lia.
  assert (H3 : (1 <= S (Z.to_nat n))%nat) by lia.
  assert (H0 : A + T (1 - 1) = A) by (change (T (1 - 1)) with 0; lia).
  assert (H4 : A <= A + T (1 - 1)) by lia.
  pose proof (CheckSequence_loop_char A n (S (Z.to_nat n)) A 1 Hn H1 H4 H2 H3)
    as H.
  rewrite H0 in H. apply H. intros j Hj. lia.
Qed.

(** X1.  From length 2 on and for an initial value [>= 0], [CheckSequence]
    returns a result, and a result other than 0 is the first prime term of
    the sequence: it is the term of index [iter - 1], an index of
    [0 .. n-1], it is prime, and no earlier term is prime. *)
Theorem CheckSequence_reports_first_prime A n :
  0 <= A -> 2 <= n ->
  exists r iter,
    Verifier.CheckSequence A n = Some (r, iter) /\
    (r <> 0 ->
     r = A + T (iter - 1) /\ Z.prime r /\ 1 <= iter <= n /\
     forall j, 0 <= j < iter - 1 -> ~ Z.prime (A + T j)).
Proof.
  intros HA Hn.
  destruct (CheckSequence_char A n Hn) as (r & iter & Hrun & Hr).
  exists r, iter. split; [exact Hrun|]. intros Hnz.
  destruct Hr as [(H0 & _)|Hr]; [contradiction | exact Hr].
Qed.

Lemma CheckSequence_reports_first_prime_witness :
  exists r iter,
    Verifier.CheckSequence 22 4 = Some (r, iter) /\
    (r <> 0 ->
     r = 22 + T (iter - 1) /\ Z.prime r /\ 1 <= iter <= 4 /\
     forall j, 0 <= j < iter - 1 -> ~ Z.prime (22 + T j)).
Proof.
  apply (CheckSequence_reports_first_prime 22 4); lia.
Defined.

(** X2.  From length 2 on and for an initial value [>= 0], when
    [CheckSequence] returns 0 the iteration number is [n], none of the first
    [n - 1] terms is prime, and the last term can only be prime when another
    prime lies strictly between the last two terms. *)
Theorem CheckSequence_zero_result A n iter :
  0 <= A -> 2 <= n -> Verifier.CheckSequence A n = Some (0, iter) ->
  iter = n /\ valid_start A (n - 1) /\
  (Z.prime (A + T (n - 1)) ->
   exists q, Z.prime q /\ A + T (n - 2) < q < A + T (n - 1)).
Proof.
  intros HA Hn Hrun.
  destruct (CheckSequence_char A n Hn) as (r & iter' & Hrun' & Hr).
  rewrite Hrun in Hrun'. injection Hrun' as <- <-.
  destruct Hr as [(_ & Hiter & Hfirst & Hlast)|(H0 & Hp & _)].
  - split; [exact Hiter|]. split; [exact Hfirst | exact Hlast].
  - exfalso. destruct Hp as [Hp _]. lia.
Qed.

Lemma CheckSequence_zero_result_witness :
  4 = 4 /\ valid_start 25 (4 - 1) /\
  (Z.prime (25 + T (4 - 1)) ->
   exists q, Z.prime q /\ 25 + T (4 - 2) < q < 25 + T (4 - 1)).
Proof.
  apply (CheckSequence_zero_result 25 4 4);
    [lia | lia | vm_compute; reflexivity].
Defined.

Lemma advanceSequence_length_one v p :
  Verifier.advanceSequence 2 v 1 p 1 = Some (v + 1, 2).
Proof.
  cbn [Verifier.advanceSequence].
  change (1 + 1) with 2. change (2 >=? 1) with true. cbv iota.
  destruct (v + 1 <? p); reflexivity.
Qed.

(** X3.  For [n = 1] and an initial value [>= 0], [CheckSequence] looks at
    two values: it returns [initialValue] (iteration 1) when that is prime,
    otherwise [initialValue + 1] (iteration 2) when that is prime, and
    otherwise 0. *)
Theorem CheckSequence_length_one A :
  0 <= A ->
  Verifier.CheckSequence A 1 =
  Some (if is_prime A then (A, 1)
        else if is_prime (A + 1) then (A + 1, 2) else (0, 2)).
Proof.
  intros HA0.
  unfold Verifier.CheckSequence, primesieve_jump_to.
  change (S (Z.to_nat 1)) with 2%nat. cbn [Verifier.CheckSequence_loop].
  destruct (firstPrimeToCheck_least (S (Z.to_nat (A - A))) A A
              ltac:(lia) ltac:(lia)) as (p & -> & Hp & Hge & Hleast).
  change (S (Z.to_nat 1)) with 2%nat.
  rewrite advanceSequence_length_one.
  change (2 <? 1) with false. cbv iota.
  destruct (Z.eqb_spec p A) as [->|Hne].
  - apply is_prime_spec in Hp. rewrite Hp. reflexivity.
  - assert (HA : is_prime A = false) by (apply is_prime_false, Hleast; lia).
    rewrite HA.
    destruct (Z.eqb_spec p (A + 1)) as [->|Hne'].
    + apply is_prime_spec in Hp. rewrite Hp. reflexivity.
    + assert (HA1 : is_prime (A + 1) = false)
        by (apply is_prime_false, Hleast; lia).
      rewrite HA1. reflexivity.
Qed.

Lemma CheckSequence_length_one_witness :
  Verifier.CheckSequence 6 1 =
  Some (if is_prime 6 then (6, 1)
        else if is_prime (6 + 1) then (6 + 1, 2) else (0, 2)).
Proof.
  apply (CheckSequence_length_one 6). lia.
Defined.

(** ** The programs as a whole *)

Lemma verify_valid v n :
  2 <= n -> valid_start v n -> Programs.verify v n = Some (Programs.SUCCESS v).
Proof.
  intros Hn Hv. unfold Programs.verify.
  destruct (CheckSequence_accepts_valid v n Hn Hv) as (iter & ->).
  reflexivity.
Qed.

(** X4.  Program 1, from length 2 on: whenever [main] comes to its last
    line, it prints SUCCESS for the least valid start value from the given
    [startValue] on; and it does come to it. *)
Theorem main_1_success n memSize startValue :
  2 <= n -> 1 <= memSize -> 0 <= startValue ->
  (forall fuel out,
     Programs.main_1 fuel n memSize startValue = Some out ->
     exists v, out = Programs.SUCCESS v /\ least_valid_from startValue n v) /\
  (exists fuel out, Programs.main_1 fuel n memSize startValue = Some out).
Proof.
  intros Hn Hmem Hstart. split.
  - intros fuel out. unfold Programs.main_1.
    destruct (Backward.look4StartValue fuel startValue n memSize) as [v|] eqn:E;
      [|discriminate].
    apply look4StartValue_sound in E; [|lia..].
    rewrite verify_valid by (try apply E; lia).
    intros [= <-]. exists v. split; [reflexivity | exact E].
  - destruct (valid_start_exists n startValue Hstart ltac:(lia))
      as (A & HA & Hv).
    destruct (look4StartValue_returns n memSize (S (Z.to_nat (A - startValue)))
                startValue A ltac:(lia) Hmem Hstart HA Hv ltac:(lia))
      as (v & Hrun).
    exists (S (Z.to_nat (A - startValue))), (Programs.SUCCESS v).
    unfold Programs.main_1. rewrite Hrun.
    apply look4StartValue_sound in Hrun; [|lia..].
    apply verify_valid; [lia | apply Hrun].
Qed.

Lemma main_1_success_witness :
  (forall fuel out,
     Programs.main_1 fuel 5 7 3 = Some out ->
     exists v, out = Programs.SUCCESS v /\ least_valid_from 3 5 v) /\
  (exists fuel out, Programs.main_1 fuel 5 7 3 = Some out).
Proof.
  apply (main_1_success 5 7 3); lia.
Defined.

(** X5.  Program 2, from length 2 on: whenever [main] comes to its last
    line, it prints SUCCESS for the least valid start value; and it does
    come to it. *)
Theorem main_2_success n memSize :
  2 <= n -> 1 <= memSize ->
  (forall fuel out,
     Programs.main_2 fuel n memSize = Some out ->
     exists v, out = Programs.SUCCESS v /\ least_valid_from 0 n v) /\
  (exists fuel out, Programs.main_2 fuel n memSize = Some out).
Proof.
  intros Hn Hmem. split.
  - intros fuel out. unfold Programs.main_2.
    destruct (Forward.main fuel n memSize) as [v|] eqn:E; [|discriminate].
    apply main_sound in E; [|lia..].
    rewrite verify_valid by (try apply E; lia).
    intros [= <-]. exists v. split; [reflexivity | exact E].
  - destruct (main_returns n memSize ltac:(lia) Hmem) as (fuel & v & Hrun).
    exists fuel, (Programs.SUCCESS v).
    unfold Programs.main_2. rewrite Hrun.
    apply main_sound in Hrun; [|lia..].
    apply verify_valid; [lia | apply Hrun].
Qed.

Lemma main_2_success_witness :
  (forall fuel out,
     Programs.main_2 fuel 5 7 = Some out ->
     exists v, out = Programs.SUCCESS v /\ least_valid_from 0 5 v) /\
  (exists fuel out, Programs.main_2 fuel 5 7 = Some out).
Proof.
  apply (main_2_success 5 7); lia.
Defined.

(** X6.  Programs 1 and 2 compute the same start value: what
    [look4StartValue] started at 0 returns is what the loop of [main] of
    program 2 returns, whatever the two block sizes. *)
Theorem programs_1_and_2_agree n size size' fuel fuel' v v' :
  1 <= n -> 1 <= size -> 1 <= size' ->
  Backward.look4StartValue fuel 0 n size = Some v ->
  Forward.main fuel' n size' = Some v' ->
  v = v'.
Proof.
  intros Hn Hsize Hsize' Hrun Hrun'.
  apply (least_valid_unique 0 n).
  - apply (look4StartValue_sound n size fuel); try assumption; lia.
  - apply (main_sound n size' fuel'); assumption.
Qed.

Lemma programs_1_and_2_agree_witness : 15 = 15.
Proof.
  apply (programs_1_and_2_agree 5 4 9 4 16 15 15);
    [lia | lia | lia | vm_compute; reflexivity | vm_compute; reflexivity].
Defined.

(** ** The backward strategy: marks and passes *)




(** X8.  The number of blocks that [look4StartValue] goes through: if the
    search from [start] returns [v] for some block size, then for every
    block size [size'] the search returns [v] exactly when it is allowed
    more than [(v - start) / size'] passes, the number of blocks it has to
    give up before the one that holds [v]. *)
Theorem look4StartValue_passes n start size fuel v size' fuel' :
  1 <= n -> 0 <= start -> 1 <= size -> 1 <= size' ->
  Backward.look4StartValue fuel start n size = Some v ->
  Backward.look4StartValue fuel' start n size' =
  if Z.of_nat fuel' <=? (v - start) / size' then None else Some v.
Proof.
  intros Hn Hstart Hsize Hsize' Hrun.
  apply look4StartValue_sound in Hrun; try assumption. clear fuel size Hsize.
  revert start Hstart Hrun.
  induction fuel' as [|f IH]; intros start Hstart Hleast.
  - simpl Backward.look4StartValue.
    destruct (Z.leb_spec (Z.of_nat 0) ((v - start) / size')) as [_|Hneg];
      [reflexivity|].
    exfalso. destruct Hleast as (Hge & _).
    pose proof (Z.div_pos (v - start) size' ltac:(lia) ltac:(lia)). lia.
  - simpl Backward.look4StartValue.
    destruct (processArray_correct start n size' Hstart Hn Hsize')
      as (r & -> & Hr).
    destruct Hr as [(Hr & Hv & Hb)|(-> & Hall)].
    + destruct (Z.geb_spec r 0) as [_|]; [|lia].
      assert (Hv' : least_valid_from start n (start + r)).
      { split; [lia|]. split; [exact Hv|]. intros A HA.
        replace A with (start + (A - start)) by lia. apply Hb. lia. }
      pose proof (least_valid_unique _ _ _ _ Hv' Hleast) as <-.
      replace (start + r - start) with r by lia.
      rewrite Z.div_small by lia.
      destruct (Z.leb_spec (Z.of_nat (S f)) 0); [lia|].
      f_equal. lia.
    + simpl.
      destruct Hleast as (Hge & Hvalid & Hbelow).
      assert (Hout : start + size' <= v).
      { destruct (Z_lt_dec v (start + size')) as [Hin|]; [exfalso | lia].
        apply (valid_not_prime_term _ _ Hvalid).
        replace v with (start + (v - start)) by lia. apply Hall. lia. }
      rewrite (IH (start + size')); [|lia|].
      * replace (v - start) with (v - (start + size') + 1 * size') by lia.
        rewrite Z.div_add by lia.
        destruct (Z.leb_spec (Z.of_nat f) ((v - (start + size')) / size'));
          destruct (Z.leb_spec (Z.of_nat (S f))
                      ((v - (start + size')) / size' + 1));
          try reflexivity; lia.
      * split; [exact Hout|]. split; [exact Hvalid|].
        intros A HA. apply Hbelow. lia.
Qed.

Lemma look4StartValue_passes_witness :
  Backward.look4StartValue 2 1 2 3 =
  if Z.of_nat 2 <=? (8 - 1) / 3 then None else Some 8.
Proof.
  apply (look4StartValue_passes 2 1 16 1 8 3 2);
    [lia | lia | lia | lia | vm_compute; reflexivity].
Defined.

(** ** The forward strategy: one candidate, one block *)

(** X9.  On the table that [fillArrayOfPrimes] builds for a block of offset
    [>= 0], [isCorrectValue] decides validity: for a candidate of the block
    it returns 1 if and only if none of the [n] terms of its sequence is
    prime. *)
Theorem isCorrectValue_decides n offset memSize value :
  1 <= n -> 0 <= offset -> 1 <= memSize ->
  offset <= value < offset + memSize ->
  exists tbl b,
    Forward.fillArrayOfPrimes (Forward.upperBoundDiff n) offset memSize
      = Some tbl /\
    Forward.isCorrectValue tbl offset value n = Some b /\
    (b = true <-> valid_start value n).
Proof.
  intros Hn Hoff Hmem Hvalue. pose proof (T_nonneg n ltac:(lia)) as HT.
  destruct (fillArrayOfPrimes_correct (Forward.upperBoundDiff n) offset
              memSize) as (tbl & Hfill & Htbl);
    [rewrite upperBoundDiff_T; exact HT | exact Hmem |].
  rewrite upperBoundDiff_T in Htbl.
  destruct (isCorrectValue_correct offset memSize n tbl value Hn Htbl Hvalue)
    as (b & Hrun & Hb).
  exists tbl, b. split; [exact Hfill|]. split; [exact Hrun|].
  destruct b; split; trivial; try discriminate.
  intros Hv. exfalso. exact (valid_not_prime_term _ _ Hv Hb).
Qed.

Lemma isCorrectValue_decides_witness :
  exists tbl b,
    Forward.fillArrayOfPrimes (Forward.upperBoundDiff 3) 20 10 = Some tbl /\
    Forward.isCorrectValue tbl 20 24 3 = Some b /\
    (b = true <-> valid_start 24 3).
Proof.
  apply (isCorrectValue_decides 3 20 10 24); lia.
Defined.

(** X10.  The loop of [main] of program 2 goes block by block.  Started at
    the first value of a block with the table of that block, it returns
    [offset + r] when the scan of the block finds the index [r], and
    otherwise comes out of the block after [memSize] tests, fills the table
    for the next block, which starts exactly [memSize] further, and goes on
    there. *)
Theorem main_loop_block_by_block n memSize offset tbl r fuel :
  1 <= n -> 1 <= memSize ->
  Forward.fillArrayOfPrimes (Forward.upperBoundDiff n) offset memSize
    = Some tbl ->
  Forward.forwardWindow offset n memSize = Some r ->
  Forward.main_loop (Z.to_nat memSize + S fuel) n memSize tbl offset offset =
  if r >=? 0 then Some (offset + r)
  else
    match Forward.fillArrayOfPrimes (Forward.upperBoundDiff n)
            (offset + memSize) memSize with
    | None => None
    | Some tbl' =>
        Forward.main_loop (S fuel) n memSize tbl' (offset + memSize)
          (offset + memSize)
    end.
Proof.
  intros Hn Hmem Hfill Hscan. unfold Forward.forwardWindow in Hscan.
  rewrite Hfill in Hscan.
  pose proof (main_loop_window n memSize tbl offset (Z.to_nat memSize)
                (S fuel) offset ltac:(lia) ltac:(lia)) as Hblock.
  rewrite Hscan in Hblock. rewrite Hblock.
  destruct (r >=? 0); [reflexivity|].
  simpl Forward.main_loop.
  destruct (Z.geb_spec (offset + memSize - offset) memSize) as [_|]; [|lia].
  destruct (Forward.fillArrayOfPrimes (Forward.upperBoundDiff n)
              (offset + memSize) memSize) as [tbl'|]; [|reflexivity].
  destruct (Z.geb_spec (offset + memSize - (offset + memSize)) memSize)
    as [|_]; [lia|].
  reflexivity.
Qed.

Lemma main_loop_block_by_block_witness :
  exists tbl,
    Forward.fillArrayOfPrimes (Forward.upperBoundDiff 2) 1 3 = Some tbl /\
    Forward.main_loop (Z.to_nat 3 + 6) 2 3 tbl 1 1 =
    if -1 >=? 0 then Some (1 + -1)
    else
      match Forward.fillArrayOfPrimes (Forward.upperBoundDiff 2) (1 + 3) 3
      with
      | None => None
      | Some tbl' => Forward.main_loop 6 2 3 tbl' (1 + 3) (1 + 3)
      end.
Proof.
  eexists. split; [vm_compute; reflexivity|].
  apply (main_loop_block_by_block 2 3 1 _ (-1) 5);
    [lia | lia | vm_compute; reflexivity | vm_compute; reflexivity].
Defined.

(** ** The coordinator: every schedule, every number of threads *)

Lemma window_bestValue_range n memSize numThreads globalOffset schedule
    bestValue :
  1 <= n -> 1 <= memSize -> 1 <= numThreads -> 0 <= globalOffset ->
  0 < globalOffset \/ has_prime_term 0 n ->
  Threads.window n memSize numThreads globalOffset 0 schedule
    = Some bestValue ->
  bestValue = 0 \/
  (globalOffset <= bestValue < globalOffset + memSize /\
   valid_start bestValue n).
Proof.
  intros Hn Hmem Hw Hoff Hzero. unfold Threads.window.
  pose proof (T_nonneg n ltac:(lia)) as HT.
  destruct (fillArrayOfPrimes_correct (Forward.upperBoundDiff n) globalOffset
              memSize) as (tbl & -> & Htbl);
    [rewrite upperBoundDiff_T; exact HT | exact Hmem |].
  rewrite upperBoundDiff_T in Htbl.
  set (g := Threads.Globals n memSize globalOffset numThreads tbl).
  destruct (forallb Threads.exited
              (snd (Threads.run g schedule (0, Threads.spawn g))));
    [|discriminate].
  intros [= <-].
  assert (Hinv : coord_inv g (Threads.run g schedule (0, Threads.spawn g))).
  { apply run_inv; try assumption. apply spawn_inv. exact Hw. }
  destruct Hinv as (_ & Hb & _). simpl in Hb.
  destruct Hb as [Hb|[Hr Hv]]; [left; exact Hb | right].
  split; [lia | exact Hv].
Qed.

Lemma window_least_valid n memSize numThreads globalOffset schedule
    bestValue :
  1 <= n -> 1 <= memSize -> 1 <= numThreads -> 0 <= globalOffset ->
  0 < globalOffset \/ has_prime_term 0 n ->
  Threads.window n memSize numThreads globalOffset 0 schedule
    = Some bestValue ->
  (bestValue = 0 /\
   forall c, globalOffset <= c < globalOffset + memSize -> has_prime_term c n)
  \/ (globalOffset <= bestValue < globalOffset + memSize /\
      least_valid_from globalOffset n bestValue).
Proof.
  intros Hn Hmem Hw Hoff Hzero Hrun.
  pose proof (window_correct_without_zero n memSize numThreads globalOffset
                schedule bestValue Hn Hmem Hw Hoff Hzero Hrun) as Hans.
  pose proof (window_bestValue_range n memSize numThreads globalOffset
                schedule bestValue Hn Hmem Hw Hoff Hzero Hrun) as Hrange.
  revert Hans. destruct (Z.eqb_spec bestValue 0) as [Hb|Hb]; intros Hans.
  - left. split; [exact Hb|].
    destruct Hans as [(Hr & _)|(_ & Hall)]; [lia|].
    intros c Hc. replace c with (globalOffset + (c - globalOffset)) by lia.
    apply Hall. lia.
  - right. destruct Hrange as [|[Hr _]]; [contradiction|].
    destruct Hans as [(_ & Hv & Hbelow)|(Hm & _)]; [|lia].
    replace (globalOffset + (bestValue - globalOffset)) with bestValue
      in Hv by lia.
    split; [lia|]. split; [lia|]. split; [exact Hv|].
    intros A HA. replace A with (globalOffset + (A - globalOffset)) by lia.
    apply Hbelow. lia.
Qed.

(** X11.  On a window in which 0 is not a valid candidate (every window
    from length 3 on, every window but the first otherwise), for every
    number of threads and every schedule that lets all threads exit, the
    coordinator ends with [bestValue] equal to the least valid candidate of
    the window, or equal to 0 when the window has no valid candidate. *)
Theorem coordinator_least_valid n memSize numThreads globalOffset schedule
    bestValue :
  1 <= n -> 1 <= memSize -> 1 <= numThreads -> 0 <= globalOffset ->
  0 < globalOffset \/ has_prime_term 0 n ->
  Threads.window n memSize numThreads globalOffset 0 schedule
    = Some bestValue ->
  (bestValue = 0 /\
   forall c, globalOffset <= c < globalOffset + memSize -> has_prime_term c n)
  \/ (globalOffset <= bestValue < globalOffset + memSize /\
      least_valid_from globalOffset n bestValue).
Proof. apply window_least_valid. Qed.

Lemma coordinator_least_valid_witness :
  (15 = 0 /\ forall c, 0 <= c < 0 + 32 -> has_prime_term c 5)
  \/ (0 <= 15 < 0 + 32 /\ least_valid_from 0 5 15).
Proof.
  apply (coordinator_least_valid 5 32 3 0
           (Threads.one_by_one 40 [2%nat; 1%nat; 0%nat]) 15);
    [lia | lia | lia | lia | | vm_compute; reflexivity].
  right. apply has_prime_termb_spec. vm_compute. reflexivity.
Defined.

Lemma run_app g s1 s2 st :
  Threads.run g (s1 ++ s2) st = Threads.run g s2 (Threads.run g s1 st).
Proof. unfold Threads.run. apply fold_left_app. Qed.

Lemma step_at_change g st i :
  1 <= Threads.n g -> 1 <= Threads.numThreads g ->
  0 <= Threads.globalOffset g ->
  prime_table (Threads.globalOffset g)
    (Threads.memSize g + T (Threads.n g)) (Threads.primeArray g) ->
  0 < Threads.globalOffset g \/ has_prime_term 0 (Threads.n g) ->
  coord_inv g st ->
  fst (Threads.step_at g st i) = fst st \/
  (fst (Threads.step_at g st i) <> 0 /\
   (fst st = 0 \/ fst (Threads.step_at g st i) <= fst st)).
Proof.
  intros Hn Hw Hoff Htbl Hzero (Hlen & Hb & Hts). unfold Threads.step_at.
  destruct (snd st !! i) as [t|] eqn:Et; [|left; reflexivity].
  pose proof (step_inv g Hn Hw Hoff Htbl Hzero (fst st) i t (Hts i t Et) Hb)
    as Hstep.
  destruct (Threads.step g (fst st) t) as [t' b']. simpl in *.
  apply Hstep.
Qed.

Lemma run_change g schedule : forall st,
  1 <= Threads.n g -> 1 <= Threads.numThreads g ->
  0 <= Threads.globalOffset g ->
  prime_table (Threads.globalOffset g)
    (Threads.memSize g + T (Threads.n g)) (Threads.primeArray g) ->
  0 < Threads.globalOffset g \/ has_prime_term 0 (Threads.n g) ->
  coord_inv g st ->
  fst (Threads.run g schedule st) = fst st \/
  (fst (Threads.run g schedule st) <> 0 /\
   (fst st = 0 \/ fst (Threads.run g schedule st) <= fst st)).
Proof.
  induction schedule as [|i schedule IH];
    intros st Hn Hw Hoff Htbl Hzero Hinv; [left; reflexivity|].
  change (Threads.run g (i :: schedule) st)
    with (Threads.run g schedule (Threads.step_at g st i)).
  pose proof (step_at_change g st i Hn Hw Hoff Htbl Hzero Hinv) as H1.
  pose proof (IH (Threads.step_at g st i) Hn Hw Hoff Htbl Hzero
                (step_at_inv g Hn Hw Hoff Htbl Hzero st i Hinv)) as H2.
  set (b0 := fst st) in *.
  set (b1 := fst (Threads.step_at g st i)) in *.
  set (b2 := fst (Threads.run g schedule (Threads.step_at g st i))) in *.
  lia.
Qed.

(** X12.  On such a window, at every point of every schedule [bestValue] is
    0 or a valid candidate of the window, and once it is not 0 it never
    becomes 0 again and never increases. *)
Theorem bestValue_only_improves n memSize numThreads globalOffset tbl
    s1 s2 :
  1 <= n -> 1 <= memSize -> 1 <= numThreads -> 0 <= globalOffset ->
  0 < globalOffset \/ has_prime_term 0 n ->
  Forward.fillArrayOfPrimes (Forward.upperBoundDiff n) globalOffset memSize
    = Some tbl ->
  let g := Threads.Globals n memSize globalOffset numThreads tbl in
  let b1 := fst (Threads.run g s1 (0, Threads.spawn g)) in
  let b2 := fst (Threads.run g (s1 ++ s2) (0, Threads.spawn g)) in
  (b1 = 0 \/
   (globalOffset <= b1 < globalOffset + memSize /\ valid_start b1 n)) /\
  (b1 <> 0 -> b2 <> 0 /\ b2 <= b1).
Proof.
  intros Hn Hmem Hw Hoff Hzero Hfill g b1 b2.
  pose proof (T_nonneg n ltac:(lia)) as HT.
  destruct (fillArrayOfPrimes_correct (Forward.upperBoundDiff n) globalOffset
              memSize) as (tbl' & Hfill' & Htbl);
    [rewrite upperBoundDiff_T; exact HT | exact Hmem |].
  rewrite Hfill in Hfill'. injection Hfill' as <-.
  rewrite upperBoundDiff_T in Htbl.
  assert (Hinv1 : coord_inv g (Threads.run g s1 (0, Threads.spawn g))).
  { apply run_inv; try assumption. apply spawn_inv. exact Hw. }
  split.
  - destruct Hinv1 as (_ & Hb & _). fold b1 in Hb. simpl in Hb.
    destruct Hb as [Hb|[Hr Hv]]; [left; exact Hb | right].
    split; [lia | exact Hv].
  - intros Hb1. unfold b2. rewrite run_app.
    pose proof (run_change g s2 _ Hn Hw Hoff Htbl Hzero Hinv1) as Hch.
    fold b1 in Hch. lia.
Qed.

Lemma bestValue_only_improves_witness :
  exists tbl,
    Forward.fillArrayOfPrimes (Forward.upperBoundDiff 5) 0 32 = Some tbl /\
    let g := Threads.Globals 5 32 0 3 tbl in
    let b1 := fst (Threads.run g (Threads.one_by_one 40 [2%nat])
                     (0, Threads.spawn g)) in
    let b2 := fst (Threads.run g
                     (Threads.one_by_one 40 [2%nat]
                      ++ Threads.one_by_one 40 [1%nat; 0%nat])
                     (0, Threads.spawn g)) in
    (b1 = 0 \/ (0 <= b1 < 0 + 32 /\ valid_start b1 5)) /\
    (b1 <> 0 -> b2 <> 0 /\ b2 <= b1).
Proof.
  eexists. split; [vm_compute; reflexivity|].
  apply (bestValue_only_improves 5 32 3 0 _
           (Threads.one_by_one 40 [2%nat])
           (Threads.one_by_one 40 [1%nat; 0%nat]));
    [lia | lia | lia | lia | | vm_compute; reflexivity].
  right. apply has_prime_termb_spec. vm_compute. reflexivity.
Defined.

(** ** The coordinator: the threads exit *)

Lemma step_steps_left g b t :
  1 <= Threads.n g -> 1 <= Threads.numThreads g ->
  Z.of_nat (length (Threads.primeArray g)) =
    Threads.memSize g + Threads.n g * (Threads.n g + 1) / 2 ->
  thread_ok g t -> Threads.exited t = false ->
  (steps_left g (fst (Threads.step g b t)) < steps_left g t)%nat.
Proof.
  intros Hn Hw Hlen Hok Hex.
  destruct t as [sv|sv|sv|ret|]; simpl in Hok; try discriminate;
    simpl Threads.step.
  - destruct (Z.ltb_spec sv (Threads.memSize g + Threads.globalOffset g))
      as [Hin|Hout].
    + destruct (isCorrectValue_in_bounds (Threads.primeArray g)
                  (Threads.globalOffset g) (Threads.memSize g) (Threads.n g)
                  sv Hn Hlen ltac:(lia)) as (res & ->).
      destruct res.
      * unfold Threads.afterLoop.
        destruct (Z.geb_spec sv (Threads.memSize g + Threads.globalOffset g));
          simpl; lia.
      * destruct (b =? 0); simpl; lia.
    + unfold Threads.afterLoop.
      destruct (Z.geb_spec sv (Threads.memSize g + Threads.globalOffset g));
        simpl; lia.
  - destruct (b <? sv).
    + unfold Threads.afterLoop.
      destruct (Z.geb_spec sv (Threads.memSize g + Threads.globalOffset g));
        simpl; lia.
    + simpl. lia.
  - destruct ((b =? 0) || (sv <? b)); simpl; lia.
  - destruct Hok.
Qed.

Lemma run_length g schedule : forall st,
  length (snd (Threads.run g schedule st)) = length (snd st).
Proof.
  induction schedule as [|i schedule IH]; intros st; [reflexivity|].
  simpl. fold (Threads.run g schedule (Threads.step_at g st i)).
  rewrite IH. unfold Threads.step_at.
  destruct (snd st !! i) as [t|]; [|reflexivity].
  destruct (Threads.step g (fst st) t). simpl. apply length_insert.
Qed.

(** A thread that is given as many steps as [steps_left] counts has
    exited, whatever the other threads do in between. *)
Lemma fair_thread_exits g schedule : forall st i t,
  1 <= Threads.n g -> 1 <= Threads.numThreads g ->
  Z.of_nat (length (Threads.primeArray g)) =
    Threads.memSize g + Threads.n g * (Threads.n g + 1) / 2 ->
  Forall (thread_ok g) (snd st) ->
  snd st !! i = Some t ->
  (steps_left g t <= count_occ Nat.eq_dec schedule i)%nat ->
  exists ret, snd (Threads.run g schedule st) !! i = Some (Threads.Exited ret).
Proof.
  induction schedule as [|j schedule IH];
    intros st i t Hn Hw Hlen Hall Hi Hsteps.
  - simpl in *. pose proof (Forall_lookup_1 _ _ _ _ Hall Hi) as Hok.
    destruct t as [sv|sv|sv|ret|]; simpl in *; try lia.
    exists ret. exact Hi.
  - change (Threads.run g (j :: schedule) st)
      with (Threads.run g schedule (Threads.step_at g st j)).
    pose proof (step_at_ok g st j Hn Hw Hlen Hall) as Hall'.
    simpl count_occ in Hsteps.
    destruct (Nat.eq_dec j i) as [->|Hne].
    + pose proof (Forall_lookup_1 _ _ _ _ Hall Hi) as Hok.
      pose proof (step_steps_left g (fst st) t Hn Hw Hlen Hok) as Hdec.
      assert (Hi' : snd (Threads.step_at g st i) !! i
                    = Some (fst (Threads.step g (fst st) t))).
      { unfold Threads.step_at. rewrite Hi.
        destruct (Threads.step g (fst st) t) as [t' b']. simpl.
        apply list_lookup_insert_eq. eapply lookup_lt_Some. exact Hi. }
      apply (IH _ i _ Hn Hw Hlen Hall' Hi').
      destruct (Threads.exited t) eqn:Hex.
      * destruct t; try discriminate. simpl. lia.
      * specialize (Hdec eq_refl). lia.
    + assert (Hi' : snd (Threads.step_at g st j) !! i = Some t).
      { unfold Threads.step_at. destruct (snd st !! j) as [tj|]; [|exact Hi].
        destruct (Threads.step g (fst st) tj) as [t' b']. simpl.
        rewrite list_lookup_insert_ne by exact Hne. exact Hi. }
      apply (IH _ i _ Hn Hw Hlen Hall' Hi'). exact Hsteps.
Qed.

Lemma fair_window_returns n memSize numThreads globalOffset bestValue
    schedule :
  1 <= n -> 1 <= memSize -> 1 <= numThreads -> 0 <= globalOffset ->
  (forall i, (i < Z.to_nat numThreads)%nat ->
     (Z.to_nat (3 * memSize + 1) <= count_occ Nat.eq_dec schedule i)%nat) ->
  exists b,
    Threads.window n memSize numThreads globalOffset bestValue schedule
      = Some b.
Proof.
  intros Hn Hmem Hw Hoff Hfair. unfold Threads.window.
  pose proof (T_nonneg n ltac:(lia)) as HT.
  destruct (fillArrayOfPrimes_correct (Forward.upperBoundDiff n) globalOffset
              memSize) as (tbl & -> & Hlen & _);
    [rewrite upperBoundDiff_T; exact HT | exact Hmem |].
  rewrite upperBoundDiff_T in Hlen.
  set (g := Threads.Globals n memSize globalOffset numThreads tbl).
  assert (Hall : forallb Threads.exited
                   (snd (Threads.run g schedule (bestValue, Threads.spawn g)))
                 = true).
  { apply forallb_forall. intros t Ht.
    apply list_elem_of_In, list_elem_of_lookup_1 in Ht as (i & Hi).
    assert (Hlt : (i < Z.to_nat numThreads)%nat).
    { apply lookup_lt_Some in Hi. rewrite run_length in Hi. simpl in Hi.
      unfold Threads.spawn in Hi. rewrite length_map, length_seq in Hi.
      exact Hi. }
    assert (Hspawn : Threads.spawn g !! i
                     = Some (Threads.AtLoop (Z.of_nat i + globalOffset))).
    { unfold Threads.spawn. rewrite list_lookup_fmap.
      rewrite lookup_seq_lt by exact Hlt. reflexivity. }
    assert (Hcount : (steps_left g
                        (Threads.AtLoop (Z.of_nat i + globalOffset))
                      <= count_occ Nat.eq_dec schedule i)%nat).
    { etransitivity; [|apply Hfair; exact Hlt]. simpl. lia. }
    destruct (fair_thread_exits g schedule (bestValue, Threads.spawn g) i
                (Threads.AtLoop (Z.of_nat i + globalOffset))
                Hn Hw Hlen (spawn_ok g) Hspawn Hcount) as (ret & Hret).
    rewrite Hret in Hi. injection Hi as <-. reflexivity. }
  rewrite Hall. eexists. reflexivity.
Qed.

(** X13.  The threads exit: under every schedule that gives each of the
    threads at least [3 * memSize + 1] steps, whatever the order, all threads
    have exited and the pass of the coordinator ends with a value of
    [bestValue]. *)
Theorem fair_schedule_joins n memSize numThreads globalOffset bestValue
    schedule :
  1 <= n -> 1 <= memSize -> 1 <= numThreads -> 0 <= globalOffset ->
  (forall i, (i < Z.to_nat numThreads)%nat ->
     (Z.to_nat (3 * memSize + 1) <= count_occ Nat.eq_dec schedule i)%nat) ->
  exists b,
    Threads.window n memSize numThreads globalOffset bestValue schedule
      = Some b.
Proof. apply fair_window_returns. Qed.

Lemma fair_schedule_joins_witness :
  exists b,
    Threads.window 2 4 2 0 0 (Threads.one_by_one 13 [1%nat; 0%nat]) = Some b.
Proof.
  apply (fair_schedule_joins 2 4 2 0 0 (Threads.one_by_one 13 [1%nat; 0%nat]));
    [lia | lia | lia | lia |].
  intros i Hi. destruct i as [|[|i]]; [vm_compute; lia | vm_compute; lia | lia].
Defined.

(** ** Program 2_MT as a whole *)

Lemma MT_main_loop_found schedules n memSize numThreads globalOffset b :
  b <> 0 ->
  Threads.main_loop schedules n memSize numThreads globalOffset b = Some b.
Proof.
  intros Hb. destruct schedules; simpl;
    destruct (Z.eqb_spec b 0); try contradiction; reflexivity.
Qed.

Lemma MT_main_loop_sound n memSize numThreads schedules : forall globalOffset v,
  1 <= n -> 1 <= memSize -> 1 <= numThreads -> 0 <= globalOffset ->
  0 < globalOffset \/ has_prime_term 0 n ->
  (forall c, 0 <= c < globalOffset -> has_prime_term c n) ->
  Threads.main_loop schedules n memSize numThreads globalOffset 0 = Some v ->
  least_valid_from 0 n v.
Proof.
  induction schedules as [|schedule schedules IH];
    intros off v Hn Hmem Hw Hoff Hzero Hbelow; [discriminate|].
  simpl Threads.main_loop.
  destruct (Threads.window n memSize numThreads off 0 schedule) as [b|] eqn:E;
    [|discriminate].
  destruct (window_least_valid n memSize numThreads off schedule b
              Hn Hmem Hw Hoff Hzero E) as [(-> & Hall)|(Hr & Hleast)].
  - intros Hrun. apply IH in Hrun; try assumption; try lia.
    intros c Hc. destruct (Z_lt_dec c off); [apply Hbelow | apply Hall]; lia.
  - rewrite MT_main_loop_found.
    + intros [= <-]. destruct Hleast as (_ & Hv & Hb).
      split; [lia|]. split; [exact Hv|].
      intros A HA. destruct (Z_lt_dec A off); [apply Hbelow | apply Hb]; lia.
    + destruct Hzero as [Hpos|Hz]; [lia|].
      intros ->. destruct Hleast as (_ & Hv & _).
      exact (valid_not_prime_term _ _ Hv Hz).
Qed.

Lemma count_occ_one_by_one steps order i :
  count_occ Nat.eq_dec (Threads.one_by_one steps order) i
  = (steps * count_occ Nat.eq_dec order i)%nat.
Proof.
  unfold Threads.one_by_one. induction order as [|j order IH]; simpl; [lia|].
  rewrite count_occ_app, IH.
  destruct (Nat.eq_dec j i) as [->|Hne].
  - rewrite count_occ_repeat_eq by reflexivity. lia.
  - rewrite count_occ_repeat_neq by (intros ->; apply Hne; reflexivity). lia.
Qed.

Lemma one_by_one_fair steps numThreads i :
  (i < numThreads)%nat ->
  (steps <= count_occ Nat.eq_dec
              (Threads.one_by_one steps (seq 0 numThreads)) i)%nat.
Proof.
  intros Hi. rewrite count_occ_one_by_one.
  assert (Hin : (0 < count_occ Nat.eq_dec (seq 0 numThreads) i)%nat).
  { apply count_occ_In, in_seq. lia. }
  nia.
Qed.

Lemma MT_main_loop_returns n memSize numThreads m : forall globalOffset A,
  1 <= n -> 1 <= memSize -> 1 <= numThreads -> 0 <= globalOffset ->
  0 < globalOffset \/ has_prime_term 0 n ->
  globalOffset <= A -> valid_start A n ->
  (Z.to_nat (A - globalOffset) < m)%nat ->
  exists v,
    Threads.main_loop
      (repeat (Threads.one_by_one (Z.to_nat (3 * memSize + 1))
                 (seq 0 (Z.to_nat numThreads))) m)
      n memSize numThreads globalOffset 0 = Some v.
Proof.
  induction m as [|m IH]; intros off A Hn Hmem Hw Hoff Hzero HA Hv Hm; [lia|].
  simpl repeat. simpl Threads.main_loop.
  destruct (fair_window_returns n memSize numThreads off 0
              (Threads.one_by_one (Z.to_nat (3 * memSize + 1))
                 (seq 0 (Z.to_nat numThreads))) Hn Hmem Hw Hoff)
    as (b & E); [intros i Hi; now apply one_by_one_fair|].
  rewrite E.
  destruct (window_least_valid n memSize numThreads off _ b
              Hn Hmem Hw Hoff Hzero E) as [(-> & Hall)|(Hr & Hleast)].
  - destruct (Z_lt_dec A (off + memSize)) as [Hin|Hout].
    + exfalso. apply (valid_not_prime_term _ _ Hv), Hall. lia.
    + apply (IH (off + memSize) A); try assumption; lia.
  - exists b. apply MT_main_loop_found.
    destruct Hzero as [Hpos|Hz]; [lia|].
    intros ->. destruct Hleast as (_ & Hvb & _).
    exact (valid_not_prime_term _ _ Hvb Hz).
Qed.

(** X14.  Program 2_MT, from length 3 on, for every number of threads:
    under whatever schedules [main] comes to its last line, it prints
    SUCCESS for the least valid start value; and there are schedules under
    which it does. *)
Theorem main_2_MT_success n memSize numThreads :
  3 <= n -> 1 <= memSize -> 1 <= numThreads ->
  (forall schedules out,
     Programs.main_2_MT schedules n memSize numThreads = Some out ->
     exists v, out = Programs.SUCCESS v /\ least_valid_from 0 n v) /\
  (exists schedules out,
     Programs.main_2_MT schedules n memSize numThreads = Some out).
Proof.
  intros Hn Hmem Hw.
  assert (Hzero : 0 < 0 \/ has_prime_term 0 n)
    by (right; apply zero_ruled_out_from_three; exact Hn).
  split.
  - intros schedules out. unfold Programs.main_2_MT.
    destruct (Threads.main_loop schedules n memSize numThreads 0 0)
      as [v|] eqn:E; [|discriminate].
    apply MT_main_loop_sound in E; try assumption; try lia.
    rewrite verify_valid by (try apply E; lia).
    intros [= <-]. exists v. split; [reflexivity | exact E].
  - destruct (valid_start_exists n 0 ltac:(lia) ltac:(lia)) as (A & HA & Hv).
    destruct (MT_main_loop_returns n memSize numThreads
                (S (Z.to_nat (A - 0))) 0 A ltac:(lia) Hmem Hw ltac:(lia)
                Hzero HA Hv ltac:(lia)) as (v & Hrun).
    eexists. exists (Programs.SUCCESS v).
    unfold Programs.main_2_MT. rewrite Hrun.
    apply MT_main_loop_sound in Hrun; try assumption; try lia.
    apply verify_valid; [lia | apply Hrun].
Qed.

Lemma main_2_MT_success_witness :
  (forall schedules out,
     Programs.main_2_MT schedules 5 8 3 = Some out ->
     exists v, out = Programs.SUCCESS v /\ least_valid_from 0 5 v) /\
  (exists schedules out, Programs.main_2_MT schedules 5 8 3 = Some out).
Proof.
  apply (main_2_MT_success 5 8 3); lia.
Defined.

(** ** The backward strategy started inside the block *)

Lemma processArray_loop_from offset n size s fuel : forall arr psi pos,
  1 <= n -> 0 <= s ->
  loop_inv_from offset n size s arr psi pos ->
  (Z.to_nat (offset + size + T (n - 1) - pos) < fuel)%nat ->
  exists r,
    Backward.processArray_loop fuel pos arr offset (n - 1) size
      (T (n - 1)) psi = Some r /\
    ((s <= r < size /\ valid_start (offset + r) n /\
      forall k, s <= k < r -> has_prime_term (offset + k) n)
     \/ (r = -1 /\
         forall k, s <= k < size -> has_prime_term (offset + k) n)).
Proof.
  induction fuel as [|f IH]; intros arr psi pos Hn Hs Hinv Hfuel; [lia|].
  destruct Hinv as (Hlen & Hpsi & Hpos & Hcells & Hbelow).
  destruct (first_prime_from_spec pos) as (Hp & Hge & Hleast).
  pose proof (T_nonneg (n - 1) ltac:(lia)) as HT.
  simpl Backward.processArray_loop. cbv zeta.
  set (p := first_prime_from pos) in *.
  set (arr1 := Backward.ruleOut (Z.to_nat (n - 1 + 1)) 0 size
                 (p - offset) arr).
  assert (Hlen1 : Z.of_nat (length arr1) = size)
    by (unfold arr1; rewrite ruleOut_length; exact Hlen).
  assert (Hcells1 : forall k, s <= k < size ->
            (alive arr1 k = false <-> ruled_out offset n (p + 1) k)).
  { intros k Hk. unfold arr1, p.
    rewrite (ruled_out_step offset n Hn pos k) by lia.
    rewrite <- (Hcells k Hk).
    pose proof (ruleOut_alive (Z.to_nat (n - 1 + 1)) 0 size
                  (first_prime_from pos - offset) arr k
                  ltac:(lia) ltac:(lia) Hlen) as Hr.
    rewrite T_0 in Hr.
    replace (first_prime_from pos - offset - 0 + 0)
      with (first_prime_from pos - offset) in Hr by lia.
    exact Hr. }
  assert (Hbelow1 : forall k, s <= k < psi -> alive arr1 k = false).
  { intros k Hk. apply Hcells1; [lia|].
    apply (ruled_out_step offset n Hn pos k); [lia | lia |].
    left. apply Hcells; [lia | apply Hbelow; exact Hk]. }
  assert (Hagain : forall q, s <= q < size -> alive arr1 q = true ->
            (forall k, s <= k < q -> alive arr1 k = false) ->
            exists r,
              (if q + T (n - 1) >=? p - offset
               then Backward.processArray_loop f (p + 1) arr1 offset (n - 1)
                      size (T (n - 1)) q
               else Some q) = Some r /\
              ((s <= r < size /\ valid_start (offset + r) n /\
                forall k, s <= k < r -> has_prime_term (offset + k) n)
               \/ (r = -1 /\
                   forall k, s <= k < size ->
                     has_prime_term (offset + k) n))).
  { intros q Hq Halive Hdead.
    destruct (Z.geb_spec (q + T (n - 1)) (p - offset)) as [Hcont|Hstop].
    - apply IH; [exact Hn | exact Hs | | lia].
      split; [exact Hlen1|]. split; [exact Hq|]. split; [lia|].
      split; [exact Hcells1 | exact Hdead].
    - exists q. split; [reflexivity|]. left. split; [exact Hq|]. split.
      + intros i Hi Hprime.
        assert (Hr : ruled_out offset n (p + 1) q).
        { exists i. split; [exact Hi|]. split; [exact Hprime|].
          assert (T i <= T (n - 1)) by (apply T_mono; lia). lia. }
        apply Hcells1 in Hr; [congruence | exact Hq].
      + intros k Hk. apply (ruled_out_has_prime_term offset n (p + 1)).
        apply Hcells1; [lia | apply Hdead; exact Hk]. }
  destruct (alive arr1 psi) eqn:Epsi; simpl negb; cbv iota.
  - apply Hagain; assumption.
  - destruct (skipRuledOut_spec (Z.to_nat size) psi size arr1
                ltac:(lia) ltac:(lia))
      as (psi' & Hrun & Hr & Hdead & Hal).
    rewrite Hrun.
    assert (Hall : forall k, s <= k < psi' -> alive arr1 k = false).
    { intros k Hk. destruct (Z.lt_trichotomy k psi) as [Hlt|[->|Hgt]].
      - apply Hbelow1; lia.
      - exact Epsi.
      - apply Hdead; lia. }
    destruct (Z.eqb_spec psi' size) as [->|Hne].
    + exists (-1). split; [reflexivity|]. right. split; [reflexivity|].
      intros k Hk. apply (ruled_out_has_prime_term offset n (p + 1)).
      apply Hcells1; [exact Hk | apply Hall; exact Hk].
    + apply Hagain; [lia | apply Hal; lia | exact Hall].
Qed.

(** X15.  [processArray] called on a block of offset [>= 0] with a start
    index [s] of the block, on a freshly initialised array: it returns the smallest index [r >= s] of
    the block whose start value [offset + r] is valid, every index from [s]
    up to [r] having a prime term, or [-1] when every index from [s] on has
    a prime term.  The indices below [s] are not looked at. *)
Theorem processArray_from_index offset n size s :
  0 <= offset -> 1 <= n -> 0 <= s < size ->
  exists r,
    Backward.processArray (Backward.initArray size) offset s n size = Some r /\
    ((s <= r < size /\ valid_start (offset + r) n /\
      forall k, s <= k < r -> has_prime_term (offset + k) n)
     \/ (r = -1 /\
         forall k, s <= k < size -> has_prime_term (offset + k) n)).
Proof.
  intros Hoff Hn Hs. unfold Backward.processArray, primesieve_jump_to.
  pose proof (T_nonneg (n - 1) ltac:(lia)) as HT.
  apply (processArray_loop_from offset n size s); [exact Hn | lia | | ].
  - unfold loop_inv_from, Backward.initArray.
    split; [rewrite length_replicate; lia|]. split; [lia|]. split; [lia|].
    split; [|intros k Hk; lia].
    intros k Hk. rewrite alive_replicate_true by lia.
    split; [discriminate|]. intros (i & Hi & _ & Hlt).
    pose proof (T_nonneg i ltac:(lia)). lia.
  - fold (T (n - 1)). lia.
Qed.

Lemma processArray_from_index_witness :
  exists r,
    Backward.processArray (Backward.initArray 12) 0 1 2 12 = Some r /\
    ((1 <= r < 12 /\ valid_start (0 + r) 2 /\
      forall k, 1 <= k < r -> has_prime_term (0 + k) 2)
     \/ (r = -1 /\ forall k, 1 <= k < 12 -> has_prime_term (0 + k) 2)).
Proof.
  apply (processArray_from_index 0 2 12 1); lia.
Defined.

(** X16.  The inner loop of [processArray] writes only to the cells of
    index [0 .. size-1]: whatever the arguments, a cell of index [size] or
    more is left as it is. *)
Theorem ruleOut_writes_inside k i size offsetPrime (arr : list bool) (j : nat) :
  size <= Z.of_nat j ->
  Backward.ruleOut k i size offsetPrime arr !! j = arr !! j.
Proof.
  intros Hj. revert i offsetPrime arr.
  induction k as [|k IH]; intros i op arr; simpl; [reflexivity|].
  destruct (Z.ltb_spec (op - i) 0); [reflexivity|].
  destruct (Z.geb_spec (op - i) size); [apply IH|].
  rewrite IH. apply list_lookup_insert_ne. lia.
Qed.

Lemma ruleOut_writes_inside_witness :
  Backward.ruleOut 4 0 5 9 (Backward.initArray 8) !! 6%nat
  = Backward.initArray 8 !! 6%nat.
Proof.
  apply (ruleOut_writes_inside 4 0 5 9 (Backward.initArray 8) 6). lia.
Defined.

(** X17.  What a thread hands to [pthread_join], on a window in which 0 is
    not a valid candidate and under every schedule: the value [-1] only when
    no candidate of its residue class in the window is valid; otherwise a
    candidate [ret] of its class below which its class has no valid
    candidate, and then [bestValue] is set and is at most [ret]. *)
Theorem thread_exit_value n memSize numThreads globalOffset tbl schedule
    (i : nat) ret :
  1 <= n -> 1 <= memSize -> 1 <= numThreads -> 0 <= globalOffset ->
  0 < globalOffset \/ has_prime_term 0 n ->
  Forward.fillArrayOfPrimes (Forward.upperBoundDiff n) globalOffset memSize
    = Some tbl ->
  let g := Threads.Globals n memSize globalOffset numThreads tbl in
  let st := Threads.run g schedule (0, Threads.spawn g) in
  snd st !! i = Some (Threads.Exited ret) ->
  (ret = -1 /\
   forall q, 0 <= q ->
     globalOffset + Z.of_nat i + numThreads * q < memSize + globalOffset ->
     has_prime_term (globalOffset + Z.of_nat i + numThreads * q) n)
  \/ (exists q, 0 <= q /\
        ret = globalOffset + Z.of_nat i + numThreads * q /\
        (forall q', 0 <= q' < q ->
           has_prime_term (globalOffset + Z.of_nat i + numThreads * q') n) /\
        fst st <> 0 /\ fst st <= ret).
Proof.
  intros Hn Hmem Hw Hoff Hzero Hfill g st Hi.
  pose proof (T_nonneg n ltac:(lia)) as HT.
  destruct (fillArrayOfPrimes_correct (Forward.upperBoundDiff n) globalOffset
              memSize) as (tbl' & Hfill' & Htbl);
    [rewrite upperBoundDiff_T; exact HT | exact Hmem |].
  rewrite Hfill in Hfill'. injection Hfill' as <-.
  rewrite upperBoundDiff_T in Htbl.
  assert (Hinv : coord_inv g st).
  { apply run_inv; try assumption. apply spawn_inv. exact Hw. }
  destruct Hinv as (_ & _ & Hts). exact (Hts i _ Hi).
Qed.

Lemma thread_exit_value_witness :
  exists tbl,
    Forward.fillArrayOfPrimes (Forward.upperBoundDiff 5) 0 32 = Some tbl /\
    let g := Threads.Globals 5 32 0 3 tbl in
    let st := Threads.run g (Threads.one_by_one 40 [2%nat; 1%nat; 0%nat])
                (0, Threads.spawn g) in
    (15 = -1 /\
     forall q, 0 <= q ->
       0 + Z.of_nat 0 + 3 * q < 32 + 0 ->
       has_prime_term (0 + Z.of_nat 0 + 3 * q) 5)
    \/ (exists q, 0 <= q /\
          15 = 0 + Z.of_nat 0 + 3 * q /\
          (forall q', 0 <= q' < q ->
             has_prime_term (0 + Z.of_nat 0 + 3 * q') 5) /\
          fst st <> 0 /\ fst st <= 15).
Proof.
  eexists. split; [vm_compute; reflexivity|].
  apply (thread_exit_value 5 32 3 0 _
           (Threads.one_by_one 40 [2%nat; 1%nat; 0%nat]) 0 15);
    [lia | lia | lia | lia | | vm_compute; reflexivity | vm_compute; reflexivity].
  right. apply has_prime_termb_spec. vm_compute. reflexivity.
Defined.

(** ** The table of primes *)

(** X18.  [fillArrayOfPrimes], whatever value [>= 0] the global
    [upperBoundDiff] has been given: for an offset [>= 0] it completes with
    a table of [memSize + upperBoundDiff] cells, and cell [j] holds 1 if and
    only if [offset + j] is prime. *)
Theorem fillArrayOfPrimes_marks_primes upperBoundDiff offset memSize :
  0 <= upperBoundDiff -> 0 <= offset -> 1 <= memSize ->
  exists tbl,
    Forward.fillArrayOfPrimes upperBoundDiff offset memSize = Some tbl /\
    Z.of_nat (length tbl) = memSize + upperBoundDiff /\
    forall j, 0 <= j < memSize + upperBoundDiff ->
      exists b, load tbl j = Some b /\ (b = true <-> Z.prime (offset + j)).
Proof.
  intros Hubd Hoff Hmem.
  destruct (fillArrayOfPrimes_correct upperBoundDiff offset memSize Hubd Hmem)
    as (tbl & Hrun & Hlen & Hcells).
  exists tbl. split; [exact Hrun|]. split; [exact Hlen|].
  intros j Hj. exists (is_prime (offset + j)).
  split; [apply Hcells; exact Hj | apply is_prime_spec].
Qed.

Lemma fillArrayOfPrimes_marks_primes_witness :
  exists tbl,
    Forward.fillArrayOfPrimes 6 5 4 = Some tbl /\
    Z.of_nat (length tbl) = 4 + 6 /\
    forall j, 0 <= j < 4 + 6 ->
      exists b, load tbl j = Some b /\ (b = true <-> Z.prime (5 + j)).
Proof.
  apply (fillArrayOfPrimes_marks_primes 6 5 4); lia.
Defined.
